(** * The Git source handler of snapcraft_legacy

    A shallow embedding of [snapcraft_legacy/internal/sources/_git.py]:
    the [Git] source class, its version derivation ([generate_version]),
    its two reconciliation paths ([_pull_existing], [_clone_new]) and the
    small repository-authoring wrappers ([init], [add], [commit], [push]).

    Conventions.
    - Python [str] is [string]; each character stands for one code point
      below 256.  [bytes.decode] is the identity on such text.
    - [None]-able arguments are [option]s; Python truthiness is [truthy].
    - The external tool is reached through one process runner [exec],
      a parameter of the development; every invocation is appended to
      a log so that statements can speak about the commands issued.
    - Exceptions are values of [exn]; methods live in the monad [M] that
      threads the heap and keeps it when an exception is raised. *)

From Stdlib Require Import ZArith Ascii String.
From stdpp Require Import base option list strings gmap pretty.

Local Open Scope Z_scope.

(** ** Python text primitives *)

Module Text.

Definition to_list : string -> list ascii := String.list_ascii_of_string.
Definition of_list : list ascii -> string := String.string_of_list_ascii.

(** [str.isspace] on code points below 256. *)
Definition isspace (c : ascii) : bool :=
  let n := nat_of_ascii c in
  ((9 <=? n)%nat && (n <=? 13)%nat) || ((28 <=? n)%nat && (n <=? 32)%nat)
  || (n =? 133)%nat || (n =? 160)%nat.

(** [str.lstrip()] *)
Fixpoint lstrip (s : string) : string :=
  match s with
  | String c s' => if isspace c then lstrip s' else s
  | EmptyString => EmptyString
  end.

(** [str.rstrip()] *)
Fixpoint rstrip (s : string) : string :=
  match s with
  | String c s' =>
      match rstrip s' with
      | EmptyString => if isspace c then EmptyString else String c EmptyString
      | r => String c r
      end
  | EmptyString => EmptyString
  end.

(** [str.strip()] *)
Definition strip (s : string) : string := rstrip (lstrip s).

(** [str.startswith(prefix)] *)
Fixpoint startswith (s pre : string) : bool :=
  match pre, s with
  | EmptyString, _ => true
  | String p pre', String c s' => if Ascii.eqb c p then startswith s' pre' else false
  | String _ _, EmptyString => false
  end.

(** [str.endswith(suffix)] for a one-character suffix. *)
Fixpoint endswith_char (s : string) (c : ascii) : bool :=
  match s with
  | EmptyString => false
  | String a EmptyString => Ascii.eqb a c
  | String _ s' => endswith_char s' c
  end.

(** [str.split(sep)] for a one-character separator. *)
Fixpoint split_go (sep : ascii) (cur : string) (s : string) : list string :=
  match s with
  | EmptyString => [String.rev cur]
  | String c s' =>
      if Ascii.eqb c sep then String.rev cur :: split_go sep EmptyString s'
      else split_go sep (String c cur) s'
  end.
Definition split (sep : ascii) (s : string) : list string :=
  split_go sep EmptyString s.

(** [sep.join(parts)] *)
Fixpoint join (sep : string) (parts : list string) : string :=
  match parts with
  | [] => EmptyString
  | [p] => p
  | p :: ps => p +:+ sep +:+ join sep ps
  end.

End Text.

(** Truthiness of an optional string: [None] and the empty string are false. *)
Definition truthy (o : option string) : bool :=
  match o with
  | Some (String _ _) => true
  | _ => false
  end.

(** ** A backtracking matcher for the regular expressions the module uses *)

Module Re.

Inductive regex : Type :=
| Bol                                   (* ^ *)
| Eol                                   (* $ *)
| Lit (t : list ascii)                  (* literal text *)
| Plus (cls : ascii -> bool)            (* [class]+ , greedy *)
| Seq (r1 r2 : regex)
| Opt (r : regex)                       (* (?:r)? , greedy *)
| Grp (name : string) (r : regex).      (* (?P<name>r) *)

Definition groups := list (string * list ascii).

Definition substring (subj : list ascii) (i j : nat) : list ascii :=
  take (j - i) (drop i subj).

(** [$] without MULTILINE: the end of the subject, or just before a
    newline that ends it. *)
Definition at_end (subj : list ascii) (i : nat) : bool :=
  match drop i subj with
  | [] => bool_decide (i = length subj)
  | [c] => Ascii.eqb c "010"
  | _ => false
  end.

Definition lit_at (t subj : list ascii) (i : nat) : bool :=
  bool_decide (take (length t) (drop i subj) = t).

(** Length of the longest run of class characters at the head. *)
Fixpoint run_length (cls : ascii -> bool) (s : list ascii) : nat :=
  match s with
  | c :: s' => if cls c then S (run_length cls s') else 0
  | [] => 0
  end%nat.

(** Greedy repetition: the longest run first, then one character less,
    down to a single character. *)
Fixpoint greedy {R} (k : nat -> option R) (i n : nat) : option R :=
  match n with
  | O => None
  | S n' =>
      match k (i + S n')%nat with
      | Some res => Some res
      | None => greedy k i n'
      end
  end.

Fixpoint m (r : regex) (subj : list ascii) (i : nat) (gs : groups)
    (k : nat -> groups -> option groups) : option groups :=
  match r with
  | Bol => if bool_decide (i = 0%nat) then k i gs else None
  | Eol => if at_end subj i then k i gs else None
  | Lit t => if lit_at t subj i then k (i + length t)%nat gs else None
  | Plus cls => greedy (fun j => k j gs) i (run_length cls (drop i subj))
  | Seq r1 r2 => m r1 subj i gs (fun j gs' => m r2 subj j gs' k)
  | Opt r' =>
      match m r' subj i gs k with
      | Some res => Some res
      | None => k i gs
      end
  | Grp name r' =>
      m r' subj i gs (fun j gs' => k j ((name, substring subj i j) :: gs'))
  end.

Definition match_at (r : regex) (subj : list ascii) (i : nat) : option groups :=
  m r subj i [] (fun _ gs => Some gs).

(** [re.search]: the first start offset at which the pattern matches. *)
Fixpoint search_from (r : regex) (subj : list ascii) (i n : nat) : option groups :=
  match match_at r subj i with
  | Some gs => Some gs
  | None =>
      match n with
      | O => None
      | S n' => search_from r subj (S i) n'
      end
  end.

Definition search (r : regex) (s : string) : option groups :=
  let subj := Text.to_list s in search_from r subj 0 (length subj).

(** [m.group(name)]: the most recent capture of the group. *)
Fixpoint group (name : string) (gs : groups) : option string :=
  match gs with
  | [] => None
  | (n, t) :: gs' => if String.eqb n name then Some (Text.of_list t) else group name gs'
  end.

End Re.

(** ** Python [os.path] on POSIX *)

Module OsPath.

Definition isabs (p : string) : bool := Text.startswith p "/".

(** One step of [posixpath.join]. *)
Definition join2 (path b : string) : string :=
  if Text.startswith b "/" then b
  else if bool_decide (path = "") || Text.endswith_char path "/" then path +:+ b
  else path +:+ "/" +:+ b.

Definition join (a : string) (ps : list string) : string := foldl join2 a ps.

Definition normpath_step (initial_slashes : bool) (new_comps : list string)
    (comp : string) : list string :=
  if bool_decide (comp = "") || bool_decide (comp = ".") then new_comps
  else if negb (bool_decide (comp = ".."))
          || (negb initial_slashes && bool_decide (new_comps = []))
          || bool_decide (last new_comps = Some "..")
       then new_comps ++ [comp]
       else removelast new_comps.

Definition normpath (path : string) : string :=
  if bool_decide (path = "") then "."
  else
    let initial_slashes :=
      if Text.startswith path "/"
      then if Text.startswith path "//" && negb (Text.startswith path "///")
           then 2%nat else 1%nat
      else 0%nat in
    let comps :=
      foldl (normpath_step (negb (bool_decide (initial_slashes = 0%nat))))
            [] (Text.split "/" path) in
    let joined :=
      Text.of_list (replicate initial_slashes "/"%char) +:+ Text.join "/" comps in
    if bool_decide (joined = "") then "." else joined.

Definition abspath (cwd path : string) : string :=
  normpath (if isabs path then path else join cwd [path]).

Fixpoint commonprefix_len (a b : list string) : nat :=
  match a, b with
  | x :: a', y :: b' => if bool_decide (x = y) then S (commonprefix_len a' b') else 0
  | _, _ => 0
  end%nat.

Definition components (p : string) : list string :=
  filter (fun x => x <> "") (Text.split "/" p).

(** [posixpath.relpath(path, start)]; [None] stands for the [ValueError]
    raised on an empty path. *)
Definition relpath (cwd path start : string) : option string :=
  if bool_decide (path = "") then None
  else
    let start_list := components (abspath cwd start) in
    let path_list := components (abspath cwd path) in
    let i := commonprefix_len start_list path_list in
    let rel_list := replicate (length start_list - i) ".." ++ drop i path_list in
    match rel_list with
    | [] => Some "."
    | a :: ps => Some (join a ps)
    end.

End OsPath.

(** ** Processes, exceptions and the heap *)

Inductive stream := PIPE | DEVNULL.

Definition kwargs := list (string * stream).

Record completed := Completed {
  returncode : Z;
  stdout : string;
  stderr : string }.

Inductive exn : Type :=
| CalledProcessError (returncode : Z) (cmd : list string) (output : string)
| ValueError (message : string)
| VCSError (message : string)
| GitCommandError (command : list string) (exit_code : Z) (output : string)
| SnapcraftSourceIncompatibleOptionsError (source_type : string) (options : list string)
| SnapcraftSourceInvalidOptionError (source_type : string) (option : string)
| SourceCommandError (command : list string) (exit_code : Z) (output : string).

(** The mapping handed to the callers of [pull]. *)
Abbreviation details := (gmap string (option string)).

Record heap (World : Type) := Heap {
  world : World;
  log : list (list string * completed);
  source_details : option details }.
Arguments Heap {World} _ _ _.
Arguments world {World} _.
Arguments log {World} _.
Arguments source_details {World} _.

Definition commands {World} (h : heap World) : list (list string) := (log h).*1.

Definition M (World A : Type) : Type := heap World -> (exn + A) * heap World.

Definition ret {World A} (a : A) : M World A := fun h => (inr a, h).

Definition raise {World A} (e : exn) : M World A := fun h => (inl e, h).

Definition bind {World A B} (c : M World A) (k : A -> M World B) : M World B :=
  fun h =>
    match c h with
    | (inr a, h') => k a h'
    | (inl e, h') => (inl e, h')
    end.

Notation "x <- c ;; k" := (bind c (fun x => k))
  (at level 100, c at next level, right associativity).
Notation "c ;;; k" := (bind c (fun _ => k))
  (at level 100, right associativity).

Definition when {World} (b : bool) (c : M World unit) : M World unit :=
  if b then c else ret tt.

(** [try: c  except subprocess.CalledProcessError: ...] — [None] when the
    handler is entered. *)
Definition try_CalledProcessError {World A} (c : M World A) : M World (option A) :=
  fun h =>
    match c h with
    | (inr a, h') => (inr (Some a), h')
    | (inl (CalledProcessError _ _ _), h') => (inr None, h')
    | (inl e, h') => (inl e, h')
    end.

(** ** The [Git] class *)

Record Git := {
  source : string;
  source_dir : string;
  source_tag : option string;
  source_commit : option string;
  source_branch : option string;
  source_depth : option Z;
  source_checksum : option string;
  source_submodules : option (list string);
  command : string;
  _call_kwargs : kwargs }.

(** [Git.__init__].  The base-class constructor (in [_base.py], which is
    not part of the sources at hand) is taken to store its arguments under
    their own names, the last one being the name of the tool. *)
Definition __init__ (source source_dir : string)
    (source_tag source_commit source_branch : option string)
    (source_depth : option Z) (silent : bool)
    (source_checksum : option string)
    (source_submodules : option (list string)) : exn + Git :=
  if truthy source_tag && truthy source_branch then
    inl (SnapcraftSourceIncompatibleOptionsError "git" ["source-tag"; "source-branch"])
  else if truthy source_tag && truthy source_commit then
    inl (SnapcraftSourceIncompatibleOptionsError "git" ["source-tag"; "source-commit"])
  else if truthy source_branch && truthy source_commit then
    inl (SnapcraftSourceIncompatibleOptionsError "git" ["source-branch"; "source-commit"])
  else if truthy source_checksum then
    inl (SnapcraftSourceInvalidOptionError "git" "source-checksum")
  else
    inr {| source := source; source_dir := source_dir;
           source_tag := source_tag; source_commit := source_commit;
           source_branch := source_branch; source_depth := source_depth;
           source_checksum := source_checksum;
           source_submodules := source_submodules;
           command := "git";
           _call_kwargs :=
             if silent then [("stdout", DEVNULL); ("stderr", DEVNULL)] else [] |}.

(** The regular expression of [generate_version]:
    [^(?P<tag>[a-zA-Z0-9.+~-]+)-(?P<revs_ahead>\d+)-g(?P<commit>[0-9a-fA-F]+(?:-dirty)?)$] *)
Definition in_range (lo hi c : ascii) : bool :=
  (nat_of_ascii lo <=? nat_of_ascii c)%nat && (nat_of_ascii c <=? nat_of_ascii hi)%nat.

Definition is_digit (c : ascii) : bool := in_range "0" "9" c.

Definition is_tag_char (c : ascii) : bool :=
  in_range "a" "z" c || in_range "A" "Z" c || in_range "0" "9" c
  || Ascii.eqb c "." || Ascii.eqb c "+" || Ascii.eqb c "~" || Ascii.eqb c "-".

Definition is_hex (c : ascii) : bool :=
  in_range "0" "9" c || in_range "a" "f" c || in_range "A" "F" c.

Definition version_pattern : Re.regex :=
  Re.Seq Re.Bol
  (Re.Seq (Re.Grp "tag" (Re.Plus is_tag_char))
  (Re.Seq (Re.Lit (Text.to_list "-"))
  (Re.Seq (Re.Grp "revs_ahead" (Re.Plus is_digit))
  (Re.Seq (Re.Lit (Text.to_list "-"))
  (Re.Seq (Re.Lit (Text.to_list "g"))
  (Re.Seq (Re.Grp "commit"
             (Re.Seq (Re.Plus is_hex) (Re.Opt (Re.Lit (Text.to_list "-dirty")))))
          Re.Eol)))))).

(** The part of [generate_version] after a successful describe query. *)
Definition format_describe (output : string) : string :=
  match Re.search version_pattern output with
  | None => output
  | Some gs =>
      let tag := default "" (Re.group "tag" gs) in
      let revs_ahead := default "" (Re.group "revs_ahead" gs) in
      let commit := default "" (Re.group "commit" gs) in
      tag +:+ "+git" +:+ revs_ahead +:+ "." +:+ commit
  end.

Section Runner.

Context {World : Type}.
(** The process runner, the file-system probe and the working directory. *)
Variable exec : list string -> kwargs -> World -> completed * World.
Variable path_exists : string -> World -> bool.
Variable getcwd : World -> string.
(** How the base class turns the bytes captured by [_run_output] into
    text ([_base.py] is not part of the sources at hand). *)
Variable output_text : string -> string.

Local Abbreviation M := (M World).

(** Spawn the command, wait for it, record the invocation. *)
Definition invoke (cmd : list string) (kw : kwargs) : M completed :=
  fun h =>
    let '(r, w') := exec cmd kw (world h) in
    (inr r, Heap w' (log h ++ [(cmd, r)]) (source_details h)).

(** [subprocess.check_output] *)
Definition check_output (cmd : list string) (kw : kwargs) : M string :=
  r <- invoke cmd kw ;;
  if bool_decide (returncode r = 0) then ret (stdout r)
  else raise (CalledProcessError (returncode r) cmd (stdout r)).

Definition generate_version (source_dir : option string) : M string :=
  source_dir <- (match source_dir with
                 | Some (String c d) => ret (String c d)
                 | _ => fun h => (inr (getcwd (world h)), h)
                 end) ;;
  attempt <- try_CalledProcessError
               (out <- check_output ["git"; "-C"; source_dir; "describe"; "--dirty"]
                                    [("stderr", DEVNULL)] ;;
                ret (Text.strip out)) ;;
  match attempt with
  | None =>
      proc <- invoke ["git"; "-C"; source_dir; "describe"; "--dirty"; "--always"]
                     [("stdout", PIPE); ("stderr", PIPE)] ;;
      if negb (bool_decide (returncode proc = 0)) then
        raise (VCSError (Text.strip (stderr proc)))
      else ret ("0+git." +:+ Text.strip (stdout proc))
  | Some output => ret (format_describe output)
  end.

Definition _run_git_command (cmd : list string) : M unit :=
  fun h =>
    match check_output cmd [] h with
    | (inl (CalledProcessError rc _ out), h') => (inl (GitCommandError cmd rc out), h')
    | (inl e, h') => (inl e, h')
    | (inr _, h') => (inr tt, h')
    end.

(** Modelled from the spec: [Base._run] of [_base.py], which is not part
    of the sources at hand.  "Any non-zero exit from the underlying
    version-control invocation fails with a SourceCommandError carrying
    the command line, exit code, and captured output." *)
Definition _run (cmd : list string) (kw : kwargs) : M unit :=
  r <- invoke cmd kw ;;
  if bool_decide (returncode r = 0) then ret tt
  else raise (SourceCommandError cmd (returncode r) (stdout r)).

(** Modelled from the spec: [Base._run_output] of [_base.py]; like [_run],
    and on success it returns the text of the captured output. *)
Definition _run_output (cmd : list string) : M string :=
  r <- invoke cmd [] ;;
  if bool_decide (returncode r = 0) then ret (output_text (stdout r))
  else raise (SourceCommandError cmd (returncode r) (stdout r)).

Definition _fetch_origin_commit (self : Git) : M unit :=
  _run [command self; "-C"; source_dir self; "fetch"; "origin";
        default "" (source_commit self)]
       (_call_kwargs self).

(** [self.source_submodules is None or len(self.source_submodules) > 0] *)
Definition submodules_in_scope (self : Git) : bool :=
  match source_submodules self with
  | None => true
  | Some l => bool_decide (0 < length l)%nat
  end.

Definition _pull_existing (self : Git) : M unit :=
  let refspec :=
    if truthy (source_branch self) then "refs/heads/" +:+ default "" (source_branch self)
    else if truthy (source_tag self) then "refs/tags/" +:+ default "" (source_tag self)
    else if truthy (source_commit self) then default "" (source_commit self)
    else "HEAD" in
  when (negb (truthy (source_branch self)) && negb (truthy (source_tag self))
        && truthy (source_commit self))
       (_fetch_origin_commit self) ;;;
  let reset_spec := if bool_decide (refspec <> "HEAD") then refspec else "origin/master" in
  let command0 := [command self; "-C"; source_dir self; "fetch"; "--prune"] in
  let command1 :=
    if submodules_in_scope self then command0 ++ ["--recurse-submodules=yes"]
    else command0 in
  _run command1 (_call_kwargs self) ;;;
  _run [command self; "-C"; source_dir self; "reset"; "--hard"; reset_spec]
       (_call_kwargs self) ;;;
  when (submodules_in_scope self)
    (let command2 := [command self; "-C"; source_dir self; "submodule"; "update";
                     "--recursive"; "--force"] in
     let command3 :=
       match source_submodules self with
       | Some (s :: l) => foldl (fun cmd submodule => cmd ++ [submodule]) command2 (s :: l)
       | _ => command2
       end in
     _run command3 (_call_kwargs self)).

(** [self.source_tag or self.source_branch] *)
Definition tag_or_branch (self : Git) : option string :=
  if truthy (source_tag self) then source_tag self else source_branch self.

(** Truthiness of the optional depth: [None] and [0] are false. *)
Definition depth_given (self : Git) : bool :=
  match source_depth self with
  | Some d => negb (bool_decide (d = 0))
  | None => false
  end.

Definition _clone_new (self : Git) : M unit :=
  let command0 := [command self; "clone"] in
  let command1 :=
    match source_submodules self with
    | None => command0 ++ ["--recursive"]
    | Some l => foldl (fun cmd submodule => cmd ++ ["--recursive=" +:+ submodule]) command0 l
    end in
  let command2 :=
    if truthy (source_tag self) || truthy (source_branch self)
    then command1 ++ ["--branch"; default "" (tag_or_branch self)]
    else command1 in
  let command3 :=
    if depth_given self
    then command2 ++ ["--depth"; pretty (default 0 (source_depth self))]
    else command2 in
  _run (command3 ++ [source self; source_dir self]) (_call_kwargs self) ;;;
  when (truthy (source_commit self))
    (_fetch_origin_commit self ;;;
     _run [command self; "-C"; source_dir self; "checkout";
           default "" (source_commit self)]
          (_call_kwargs self)).

Definition is_local (self : Git) : M bool :=
  fun h => (inr (path_exists (OsPath.join (source_dir self) [".git"]) (world h)), h).

Definition _get_source_details (self : Git) : M details :=
  let tag := source_tag self in
  let branch := source_branch self in
  let checksum := source_checksum self in
  commit <- (if negb (truthy tag) && negb (truthy branch)
                && negb (truthy (source_commit self))
             then c <- _run_output ["git"; "-C"; source_dir self; "rev-parse"; "HEAD"] ;;
                  ret (Some c)
             else ret (source_commit self)) ;;
  ret (<["source-commit" := commit]>
       (<["source-branch" := branch]>
       (<["source" := Some (source self)]>
       (<["source-tag" := tag]>
       (<["source-checksum" := checksum]> ∅))))).

Definition set_source_details (d : details) : M unit :=
  fun h => (inr tt, Heap (world h) (log h) (Some d)).

Definition pull (self : Git) : M unit :=
  local <- is_local self ;;
  (if local then _pull_existing self else _clone_new self) ;;;
  d <- _get_source_details self ;;
  set_source_details d.

Definition push (self : Git) (url refspec : string) (force : bool) : M unit :=
  let command0 := [command self; "-C"; source_dir self; "push"; url; refspec] in
  let command1 := if force then command0 ++ ["--force"] else command0 in
  _run_git_command command1.

Definition init (self : Git) : M unit :=
  _run_git_command [command self; "-C"; source_dir self; "init"].

Definition add (self : Git) (file : string) : M unit :=
  file' <- (if Text.startswith file (source_dir self)
            then fun h =>
                   match OsPath.relpath (getcwd (world h)) file (source_dir self) with
                   | Some rel => (inr rel, h)
                   | None => (inl (ValueError "no path specified"), h)
                   end
            else ret file) ;;
  _run_git_command [command self; "-C"; source_dir self; "add"; file'].

Definition commit (self : Git) (message : string) (author : option string) : M unit :=
  let author :=
    default "snapcraft <snapcraft@snapcraft_legacy.local>" author in
  _run_git_command [command self; "-C"; source_dir self; "commit"; "--no-gpg-sign";
                    "--message"; message; "--author"; author].

End Runner.

(** ** Scripted runners for concrete runs *)

Definition ok (out : string) : completed := Completed 0 out "".
Definition failed (rc : Z) (out err : string) : completed := Completed rc out err.

(** A runner that plays back a list of results and then always succeeds. *)
Definition scripted (_ : list string) (_ : kwargs) (w : list completed)
    : completed * list completed :=
  match w with
  | r :: w' => (r, w')
  | [] => (ok "", [])
  end.

Definition no_paths (_ : string) (_ : list completed) : bool := false.
Definition all_paths (_ : string) (_ : list completed) : bool := true.
Definition cwd_root (_ : list completed) : string := "/".
Definition text_id (s : string) : string := s.

Definition start (script : list completed) : heap (list completed) :=
  Heap script [] None.

(** ** Declarative reading of the regular expressions *)

Module ReSem.
Import Re.

(** [Matches subj r i gs j gs']: [r] can match [subj] from offset [i] to
    offset [j], turning the captures [gs] into [gs']. *)
Inductive Matches (subj : list ascii)
  : regex -> nat -> groups -> nat -> groups -> Prop :=
| M_Bol gs : Matches subj Bol 0 gs 0 gs
| M_Eol i gs : at_end subj i = true -> Matches subj Eol i gs i gs
| M_Lit t i gs :
    lit_at t subj i = true -> Matches subj (Lit t) i gs (i + length t) gs
| M_Plus cls i n gs :
    (0 < n)%nat -> (n <= run_length cls (drop i subj))%nat ->
    Matches subj (Plus cls) i gs (i + n) gs
| M_Seq r1 r2 i j l gs gs1 gs2 :
    Matches subj r1 i gs j gs1 -> Matches subj r2 j gs1 l gs2 ->
    Matches subj (Seq r1 r2) i gs l gs2
| M_Opt_some r i j gs gs' :
    Matches subj r i gs j gs' -> Matches subj (Opt r) i gs j gs'
| M_Opt_none r i gs : Matches subj (Opt r) i gs i gs
| M_Grp name r i j gs gs' :
    Matches subj r i gs j gs' ->
    Matches subj (Grp name r) i gs j ((name, substring subj i j) :: gs').

End ReSem.

(** The shape [<tag>-<N>-g<commit>[-dirty]] of a describe output as the
    words say it: any non-empty tag name, a decimal count, a hexadecimal
    commit, and the optional marker. *)
Record describe_shape (tag revs commit dirty output : string) : Prop := {
  shape_output : output = tag +:+ "-" +:+ revs +:+ "-g" +:+ commit +:+ dirty;
  shape_tag : tag <> "";
  shape_revs : revs <> "" /\ forallb is_digit (Text.to_list revs) = true;
  shape_commit : commit <> "" /\ forallb is_hex (Text.to_list commit) = true;
  shape_dirty : dirty = "" \/ dirty = "-dirty" }.

(** The same shape with the tag restricted to the characters the pattern
    of [generate_version] admits in a tag, [[a-zA-Z0-9.+~-]]. *)
Definition chars_in (cls : ascii -> bool) (s : string) : bool :=
  forallb cls (Text.to_list s).

Record describe_form (tag revs commit dirty output : string) : Prop := {
  form_output : output = tag +:+ "-" +:+ revs +:+ "-g" +:+ commit +:+ dirty;
  form_tag : tag <> "" /\ chars_in is_tag_char tag = true;
  form_revs : revs <> "" /\ chars_in is_digit revs = true;
  form_commit : commit <> "" /\ chars_in is_hex commit = true;
  form_dirty : dirty = "" \/ dirty = "-dirty" }.

(** The directory [generate_version] queries: the argument when it is
    given and not empty, the working directory otherwise. *)
Definition describe_dir {World} (getcwd : World -> string)
    (source_dir : option string) (w : World) : string :=
  if truthy source_dir then default "" source_dir else getcwd w.

Definition describe_cmd (dir : string) : list string :=
  ["git"; "-C"; dir; "describe"; "--dirty"].

Definition describe_always_cmd (dir : string) : list string :=
  ["git"; "-C"; dir; "describe"; "--dirty"; "--always"].

(** ** Command sequences

    The reconciliation paths are straight-line: they issue a list of
    commands through [_run] and stop at the first one that fails.  The
    definitions below name those lists so that statements can spell out
    which commands a path issues. *)

(** Run the commands in order, stopping at the first failure. *)
Fixpoint run_all {World} (exec : list string -> kwargs -> World -> completed * World)
    (cmds : list (list string)) (kw : kwargs) : M World unit :=
  match cmds with
  | [] => ret tt
  | cmd :: rest => _run exec cmd kw ;;; run_all exec rest kw
  end.

Definition git_C (self : Git) (args : list string) : list string :=
  command self :: "-C" :: source_dir self :: args.

Definition fetch_commit_cmd (self : Git) (c : string) : list string :=
  git_C self ["fetch"; "origin"; c].

Definition reset_cmd (self : Git) (target : string) : list string :=
  git_C self ["reset"; "--hard"; target].

Definition checkout_cmd (self : Git) (c : string) : list string :=
  git_C self ["checkout"; c].

(** The fetch of the update path, with or without submodule recursion. *)
Definition fetch_cmd (self : Git) (recurse : bool) : list string :=
  git_C self (["fetch"; "--prune"] ++ if recurse then ["--recurse-submodules=yes"] else []).

Definition submodule_update_cmd (self : Git) (names : list string) : list string :=
  git_C self (["submodule"; "update"; "--recursive"; "--force"] ++ names).

(** The commit fetched ahead of the update path, if any. *)
Definition prefetch_cmds (self : Git) : list (list string) :=
  if negb (truthy (source_branch self)) && negb (truthy (source_tag self))
     && truthy (source_commit self)
  then [fetch_commit_cmd self (default "" (source_commit self))]
  else [].

Definition refspec_of (self : Git) : string :=
  if truthy (source_branch self) then "refs/heads/" +:+ default "" (source_branch self)
  else if truthy (source_tag self) then "refs/tags/" +:+ default "" (source_tag self)
  else if truthy (source_commit self) then default "" (source_commit self)
  else "HEAD".

Definition reset_target (self : Git) : string :=
  if bool_decide (refspec_of self = "HEAD") then "origin/master" else refspec_of self.

Definition pull_existing_plan (self : Git) : list (list string) :=
  prefetch_cmds self
  ++ [fetch_cmd self (submodules_in_scope self); reset_cmd self (reset_target self)]
  ++ (if submodules_in_scope self
      then [submodule_update_cmd self (default [] (source_submodules self))]
      else []).

(** Ref and depth options of the clone. *)
Definition clone_opts (self : Git) : list string :=
  (if truthy (source_tag self) || truthy (source_branch self)
   then ["--branch"; default "" (tag_or_branch self)] else [])
  ++ (if depth_given self
      then ["--depth"; pretty (default 0 (source_depth self))] else []).

Definition clone_cmd (self : Git) (submodule_flags : list string) : list string :=
  [command self; "clone"] ++ submodule_flags ++ clone_opts self
  ++ [source self; source_dir self].

(** The commands that pin a fresh clone to a commit, if one was asked for. *)
Definition pin_commit_cmds (self : Git) : list (list string) :=
  if truthy (source_commit self)
  then [fetch_commit_cmd self (default "" (source_commit self));
        checkout_cmd self (default "" (source_commit self))]
  else [].

Definition clone_submodule_flags (self : Git) : list string :=
  match source_submodules self with
  | None => ["--recursive"]
  | Some l => (fun submodule => "--recursive=" +:+ submodule) <$> l
  end.

Definition clone_new_plan (self : Git) : list (list string) :=
  clone_cmd self (clone_submodule_flags self) :: pin_commit_cmds self.

(** A command is a submodule step when it is the [submodule] subcommand or
    carries a submodule recursion flag. *)
Definition submodule_step (cmd : list string) : bool :=
  existsb (fun a => bool_decide (a = "submodule")
                    || Text.startswith a "--recurse-submodules"
                    || Text.startswith a "--recursive") cmd.

(** A command names a submodule when the name is one of its arguments,
    bare or as the value of a [--recursive=] flag. *)
Definition names_submodule (cmd : list string) (name : string) : bool :=
  existsb (fun a => bool_decide (a = name)
                    || bool_decide (a = "--recursive=" +:+ name)) cmd.

(** The two kinds of configuration error that [__init__] raises. *)
Definition ConfigConflict (e : exn) : Prop :=
  match e with
  | SnapcraftSourceIncompatibleOptionsError _ _
  | SnapcraftSourceInvalidOptionError _ _ => True
  | _ => False
  end.

(** How many of tag, branch and commit are given. *)
Definition selectors_given (tag commit branch : option string) : nat :=
  ((if truthy tag then 1 else 0) + (if truthy commit then 1 else 0)
   + (if truthy branch then 1 else 0))%nat.

(** The entries a computation adds to the log of invocations. *)
Definition new_calls {World A} (c : M World A) (h : heap World)
    : list (list string * completed) :=
  drop (length (log h)) (log (c h).2).

(** Every invocation that exits non-zero ends the operation with the
    command error for exactly that invocation. *)
Definition nonzero_exit_is_fatal {World A} (c : M World A) : Prop :=
  forall h cmd res,
    (cmd, res) ∈ new_calls c h -> returncode res <> 0 ->
    (c h).1 = inl (GitCommandError cmd (returncode res) (stdout res))
    \/ (c h).1 = inl (SourceCommandError cmd (returncode res) (stdout res)).

(** A file is under a directory when the directory's path components are
    a prefix of the file's. *)
Definition falls_under (cwd dir file : string) : Prop :=
  OsPath.components (OsPath.abspath cwd dir)
  `prefix_of` OsPath.components (OsPath.abspath cwd file).

(** [tidy c]: [c] never touches the recorded details, only appends to
    the log, and when it returns normally every invocation it made
    exited with zero. *)
Definition tidy {World A} (c : M World A) : Prop :=
  forall h,
    source_details (c h).2 = source_details h
    /\ exists l, log (c h).2 = log h ++ l
                 /\ (forall a, (c h).1 = inr a ->
                               Forall (fun call => returncode call.2 = 0) l).


(** Everything [pull] does before it records the details. *)
Definition pull_prefix {World}
    (exec : list string -> kwargs -> World -> completed * World)
    (path_exists : string -> World -> bool) (output_text : string -> string)
    (self : Git) : M World details :=
  local <- is_local path_exists self ;;
  (if local then _pull_existing exec self else _clone_new exec self) ;;;
  _get_source_details exec output_text self.

Definition rev_parse_cmd (self : Git) : list string :=
  ["git"; "-C"; source_dir self; "rev-parse"; "HEAD"].

(** The five keys of the details mapping. *)
Definition details_keys : gset string :=
  {["source-commit"; "source-branch"; "source"; "source-tag"; "source-checksum"]}.

(** The mapping [_get_source_details] builds around a commit value. *)
Definition details_of (self : Git) (commit : option string) : details :=
  <["source-commit" := commit]>
  (<["source-branch" := source_branch self]>
  (<["source" := Some (source self)]>
  (<["source-tag" := source_tag self]>
  (<["source-checksum" := source_checksum self]> ∅)))).

Definition no_selector (self : Git) : bool :=
  negb (truthy (source_tag self)) && negb (truthy (source_branch self))
  && negb (truthy (source_commit self)).

(** An invocation that exits non-zero ends the operation at once: it is
    the last invocation made, every earlier one exited with zero, and the
    operation fails with the command error for exactly that invocation. *)
Definition stops_at_nonzero_exit {World A} (c : M World A) : Prop :=
  forall h cmd res,
    (cmd, res) ∈ new_calls c h -> returncode res <> 0 ->
    ((c h).1 = inl (GitCommandError cmd (returncode res) (stdout res))
     \/ (c h).1 = inl (SourceCommandError cmd (returncode res) (stdout res)))
    /\ exists earlier,
         new_calls c h = earlier ++ [(cmd, res)]
         /\ Forall (fun call => returncode call.2 = 0) earlier.

(** ** Traces of a run *)

(** The commands [pull] issues on a path: the path's own, then the query
    for the commit when no selector pins one. *)
Definition pull_plan (self : Git) (local : bool) : list (list string) :=
  (if local then pull_existing_plan self else clone_new_plan self)
  ++ (if no_selector self then [rev_parse_cmd self] else []).

(** [follows plan c]: the invocations [c] makes are, in order, commands of
    [plan]; when [c] returns normally it has made all of them and each
    exited with zero; when it raises, the last invocation is the only one
    that exited non-zero and the error is the command error for it. *)
Definition follows {World A} (plan : list (list string)) (c : M World A) : Prop :=
  forall h, exists l,
    log (c h).2 = log h ++ l
    /\ l.*1 `prefix_of` plan
    /\ match (c h).1 with
       | inr _ => l.*1 = plan /\ Forall (fun call => returncode call.2 = 0) l
       | inl e =>
           exists l0 cmd res,
             l = l0 ++ [(cmd, res)]
             /\ Forall (fun call => returncode call.2 = 0) l0
             /\ returncode res <> 0
             /\ e = SourceCommandError cmd (returncode res) (stdout res)
       end.

(** Whether the constructor argument behind an option name was given. *)
Definition option_given (tag commit branch : option string) (name : string) : bool :=
  if bool_decide (name = "source-tag") then truthy tag
  else if bool_decide (name = "source-commit") then truthy commit
  else if bool_decide (name = "source-branch") then truthy branch
  else false.

(** The [--depth] option of a clone: absent for no depth and for depth 0. *)
Definition depth_opts (depth : option Z) : list string :=
  match depth with
  | Some d => if bool_decide (d = 0) then [] else ["--depth"; pretty d]
  | None => []
  end.

Definition no_slash (c : string) : bool :=
  forallb (fun a => negb (Ascii.eqb a "/")) (Text.to_list c).

(** A path component that [normpath] keeps as it is: not empty, not [.],
    not [..], and free of slashes. *)
Definition clean_component (c : string) : bool :=
  negb (bool_decide (c = "")) && negb (bool_decide (c = "."))
  && negb (bool_decide (c = ".."))
  && no_slash c.

(** A command is directed at a directory when it starts with
    [git -C <dir>], or is a [git clone] whose last argument is [dir]. *)
Definition targets (dir : string) (cmd : list string) : Prop :=
  take 3 cmd = ["git"; "-C"; dir]
  \/ (take 2 cmd = ["git"; "clone"] /\ last cmd = Some dir).

(** ** Probing for the tool

    [Git.version] and [Git.check_command_installed] are class methods
    that spawn the tool directly.  Spawning can fail before the tool
    runs at all; that outcome is [NotFound], and the exception it gives
    rise to is [FileNotFoundError]. *)

Inductive spawned := Ran (r : completed) | NotFound.

Inductive probe_exn := FileNotFoundError | Raised (e : exn).

Section Probe.

Context {World : Type}.
Variable spawn : list string -> kwargs -> World -> spawned * World.

Definition version (w : World) : (probe_exn + string) * World :=
  match spawn ["git"; "version"] [("stderr", DEVNULL)] w with
  | (Ran r, w') =>
      if bool_decide (returncode r = 0)
      then (inr (Text.strip (stdout r)), w')
      else (inl (Raised (CalledProcessError (returncode r) ["git"; "version"]
                                            (stdout r))), w')
  | (NotFound, w') => (inl FileNotFoundError, w')
  end.

Definition check_command_installed (w : World) : (probe_exn + bool) * World :=
  match version w with
  | (inl FileNotFoundError, w') => (inr false, w')
  | (inl e, w') => (inl e, w')
  | (inr _, w') => (inr true, w')
  end.

End Probe.

(** * Facts about the text primitives *)

Module TextFacts.
Import Text.

Lemma to_list_app (a b : string) : to_list (a +:+ b) = to_list a ++ to_list b.
Proof. induction a as [|c a IH]; simpl; [done|]. unfold to_list in *. simpl. by rewrite IH. Qed.

Lemma of_list_app (a b : list ascii) : of_list (a ++ b) = of_list a +:+ of_list b.
Proof. induction a as [|c a IH]; simpl; [done|]. unfold of_list in *. simpl. by rewrite IH. Qed.

Lemma of_to_list (s : string) : of_list (to_list s) = s.
Proof. apply String.string_of_list_ascii_of_string. Qed.

Lemma to_of_list (l : list ascii) : to_list (of_list l) = l.
Proof. apply String.list_ascii_of_string_of_list_ascii. Qed.

Lemma to_list_inj (a b : string) : to_list a = to_list b -> a = b.
Proof. intros H. rewrite <- (of_to_list a), <- (of_to_list b). by rewrite H. Qed.

(** What [rstrip] leaves never ends in white space. *)
Lemma rstrip_last (s : string) (l : list ascii) (c : ascii) :
  to_list (rstrip s) = l ++ [c] -> isspace c = false.
Proof.
  revert l. induction s as [|a s IH]; intros l; simpl.
  - by destruct l.
  - destruct (rstrip s) as [|b r] eqn:E.
    + destruct (isspace a) eqn:Ea; simpl.
      * by destruct l.
      * destruct l as [|x [|y l]]; simpl; intros [= ]; by subst.
    + destruct l as [|x l]; simpl.
      * intros [= ]. 
      * intros [= -> Hl]. by apply (IH l).
Qed.

Lemma strip_last (s : string) (l : list ascii) (c : ascii) :
  to_list (strip s) = l ++ [c] -> isspace c = false.
Proof. apply rstrip_last. Qed.

End TextFacts.

(** * The matcher agrees with the declarative reading *)

Module ReFacts.
Import Re ReSem.

Lemma greedy_sound {R} (k : nat -> option R) i n res :
  greedy k i n = Some res ->
  exists d, (0 < d <= n)%nat /\ k (i + d)%nat = Some res.
Proof.
  induction n as [|n IH]; simpl; [done|].
  destruct (k (i + S n)%nat) eqn:E.
  - intros [= <-]. exists (S n). split; [lia|done].
  - intros H. destruct (IH H) as (d & Hd & Hk). exists d. split; [lia|done].
Qed.

Lemma greedy_complete {R} (k : nat -> option R) i n d :
  (0 < d <= n)%nat -> is_Some (k (i + d)%nat) -> is_Some (greedy k i n).
Proof.
  induction n as [|n IH]; intros Hd Hk; [lia|]. simpl.
  destruct (k (i + S n)%nat) eqn:E; [by eexists|].
  apply IH; [|done].
  destruct (decide (d = S n)) as [->|]; [|lia].
  rewrite E in Hk. by destruct Hk.
Qed.

Lemma m_sound subj r : forall i gs k res,
  m r subj i gs k = Some res ->
  exists j gs', Matches subj r i gs j gs' /\ k j gs' = Some res.
Proof.
  induction r as [| |t|cls|r1 IH1 r2 IH2|r IH|name r IH]; intros i gs k res; simpl.
  - case_bool_decide as Hi; [|done]. subst i. intros H.
    exists 0%nat, gs. split; [constructor|done].
  - destruct (at_end subj i) eqn:E; [|done]. intros H.
    exists i, gs. split; [by constructor|done].
  - destruct (lit_at t subj i) eqn:E; [|done]. intros H.
    exists (i + length t)%nat, gs. split; [by constructor|done].
  - intros H. apply greedy_sound in H as (d & Hd & Hk).
    exists (i + d)%nat, gs. split; [constructor; lia|done].
  - intros H. apply IH1 in H as (j & gs1 & H1 & H).
    apply IH2 in H as (l & gs2 & H2 & H).
    exists l, gs2. split; [by econstructor|done].
  - destruct (m r subj i gs k) eqn:E.
    + intros [= <-]. apply IH in E as (j & gs' & H1 & H).
      exists j, gs'. split; [by constructor|done].
    + intros H. exists i, gs. split; [apply M_Opt_none|done].
  - intros H. apply IH in H as (j & gs' & H1 & H).
    eexists j, _. split; [by constructor|done].
Qed.

Lemma m_complete subj r i gs j gs' :
  Matches subj r i gs j gs' ->
  forall k, is_Some (k j gs') -> is_Some (m r subj i gs k).
Proof.
  induction 1 as [gs|i gs E|t i gs E|cls i n gs Hn Hr
                 |r1 r2 i j l gs gs1 gs2 _ IH1 _ IH2
                 |r i j gs gs' _ IH|r i gs|name r i j gs gs' _ IH];
    intros k Hk; simpl.
  - done.
  - by rewrite E.
  - by rewrite E.
  - by apply greedy_complete with n.
  - apply IH1, IH2, Hk.
  - destruct (m r subj i gs k) eqn:E; [by eexists|].
    apply IH in Hk. rewrite E in Hk. by destruct Hk.
  - destruct (m r subj i gs k) eqn:E; [by eexists|done].
  - by apply IH.
Qed.

(** An anchored pattern can only match at the start of the subject. *)
Lemma search_from_Bol r subj i n :
  search_from (Seq Bol r) subj (S i) n = None.
Proof. revert i. induction n as [|n IH]; intros i; simpl; [done|]. apply IH. Qed.

Lemma search_Bol r s :
  search (Seq Bol r) s = match_at (Seq Bol r) (Text.to_list s) 0.
Proof.
  unfold search. destruct (length (Text.to_list s)); simpl.
  - by destruct (match_at _ _ _).
  - rewrite search_from_Bol. by destruct (match_at _ _ _).
Qed.

(** ** Runs of class characters *)

Lemma run_length_app cls (a rest : list ascii) :
  forallb cls a = true -> (length a <= run_length cls (a ++ rest))%nat.
Proof.
  induction a as [|c a IH]; simpl; [lia|].
  destruct (cls c); simpl; [|done]. intros H. specialize (IH H). lia.
Qed.

Lemma run_length_take cls (s : list ascii) n :
  (n <= run_length cls s)%nat ->
  forallb cls (take n s) = true /\ length (take n s) = n.
Proof.
  revert n. induction s as [|c s IH]; intros n; simpl.
  - intros Hn. assert (n = 0%nat) as -> by lia. done.
  - destruct n as [|n]; [done|]. simpl.
    destruct (cls c); [|lia]. intros Hn.
    destruct (IH n) as [H1 H2]; [lia|]. by rewrite H1, H2.
Qed.

Lemma lit_at_drop t subj i :
  lit_at t subj i = true -> drop i subj = t ++ drop (i + length t) subj.
Proof.
  unfold lit_at. intros H%bool_decide_eq_true.
  rewrite <- (take_drop (length t) (drop i subj)) at 1.
  by rewrite H, drop_drop.
Qed.

Lemma lit_at_intro t subj i rest :
  drop i subj = t ++ rest -> lit_at t subj i = true.
Proof.
  intros H. unfold lit_at. apply bool_decide_eq_true.
  by rewrite H, take_app_length.
Qed.

Lemma plus_drop cls subj i n :
  (n <= run_length cls (drop i subj))%nat ->
  exists a, drop i subj = a ++ drop (i + n) subj
            /\ forallb cls a = true /\ length a = n
            /\ substring subj i (i + n) = a.
Proof.
  intros H. destruct (run_length_take cls _ _ H) as [H1 H2].
  exists (take n (drop i subj)). split_and!; [|done|done|].
  - by rewrite <- drop_drop, take_drop.
  - unfold substring. f_equal. lia.
Qed.

End ReFacts.

(** * The version pattern *)

Module PatternFacts.
Import Re ReSem ReFacts.

Local Abbreviation dash := ("-"%char).
Local Abbreviation gee := ("g"%char).
Local Abbreviation newline := ("010"%char).
Local Abbreviation dirty_mark := (Text.to_list "-dirty").

(** The list-level shape of a subject the pattern accepts. *)
Record shape (T N C D E subj : list ascii) : Prop := {
  shape_subj : subj = T ++ dash :: N ++ dash :: gee :: C ++ D ++ E;
  shape_T : T <> [] /\ forallb is_tag_char T = true;
  shape_N : N <> [] /\ forallb is_digit N = true;
  shape_C : C <> [] /\ forallb is_hex C = true;
  shape_D : D = [] \/ D = dirty_mark;
  shape_E : E = [] \/ E = [newline] }.

Definition captures (T N C D : list ascii) : groups :=
  [("commit", C ++ D); ("revs_ahead", N); ("tag", T)].

Lemma inv_Bol subj i gs j gs' :
  Matches subj Bol i gs j gs' -> i = 0%nat /\ j = 0%nat /\ gs' = gs.
Proof. by inversion 1. Qed.

Lemma inv_Eol subj i gs j gs' :
  Matches subj Eol i gs j gs' -> j = i /\ gs' = gs /\ at_end subj i = true.
Proof. by inversion 1. Qed.

Lemma inv_Lit subj t i gs j gs' :
  Matches subj (Lit t) i gs j gs' ->
  j = (i + length t)%nat /\ gs' = gs /\ lit_at t subj i = true.
Proof. by inversion 1. Qed.

Lemma inv_Plus subj cls i gs j gs' :
  Matches subj (Plus cls) i gs j gs' ->
  exists n, j = (i + n)%nat /\ gs' = gs /\ (0 < n)%nat
            /\ (n <= run_length cls (drop i subj))%nat.
Proof. inversion 1; subst. by eexists. Qed.

Lemma inv_Seq subj r1 r2 i gs l gs2 :
  Matches subj (Seq r1 r2) i gs l gs2 ->
  exists j gs1, Matches subj r1 i gs j gs1 /\ Matches subj r2 j gs1 l gs2.
Proof. inversion 1; subst. by eexists _, _. Qed.

Lemma inv_Opt subj r i gs j gs' :
  Matches subj (Opt r) i gs j gs' ->
  Matches subj r i gs j gs' \/ (j = i /\ gs' = gs).
Proof. inversion 1; subst; [by left|by right]. Qed.

Lemma inv_Grp subj name r i gs j gs2 :
  Matches subj (Grp name r) i gs j gs2 ->
  exists gs', Matches subj r i gs j gs' /\ gs2 = (name, substring subj i j) :: gs'.
Proof. inversion 1; subst. by eexists. Qed.

Lemma drop_advance (subj a rest : list ascii) i :
  drop i subj = a ++ rest -> drop (i + length a) subj = rest.
Proof. intros H. by rewrite <- drop_drop, H, drop_app_length. Qed.

Lemma nonempty_length (a : list ascii) : (0 < length a)%nat <-> a <> [].
Proof. destruct a; simpl; split; (done || lia). Qed.

Lemma at_end_cases subj i :
  at_end subj i = true -> drop i subj = [] \/ drop i subj = [newline].
Proof.
  unfold at_end. destruct (drop i subj) as [|c [|d l]]; [by left| |done].
  intros H%Ascii.eqb_eq. subst. by right.
Qed.

Lemma inv_Opt_Lit subj t i gs j gs' :
  Matches subj (Opt (Lit t)) i gs j gs' ->
  gs' = gs /\ exists D, (D = [] \/ D = t) /\ j = (i + length D)%nat
                        /\ drop i subj = D ++ drop j subj.
Proof.
  intros [H|[-> ->]]%inv_Opt.
  - apply inv_Lit in H as (-> & -> & H). split; [done|].
    exists t. split; [by right|]. split; [done|]. by apply lit_at_drop.
  - split; [done|]. exists []. split; [by left|]. split; [simpl; lia|done].
Qed.

Lemma pattern_sound subj gs :
  match_at version_pattern subj 0 = Some gs ->
  exists T N C D E, shape T N C D E subj /\ gs = captures T N C D.
Proof.
  unfold match_at. intros H.
  apply m_sound in H as (j & gs' & H & [= <-]).
  unfold version_pattern in H.
  apply inv_Seq in H as (j0 & g0 & H0 & H).
  apply inv_Bol in H0 as (_ & -> & ->).
  apply inv_Seq in H as (j1 & g1 & H1 & H).
  apply inv_Grp in H1 as (? & H1 & ->).
  apply inv_Plus in H1 as (nT & -> & -> & HnT & HrT).
  apply inv_Seq in H as (j2 & g2 & H2 & H).
  apply inv_Lit in H2 as (-> & -> & Hl1).
  apply inv_Seq in H as (j3 & g3 & H3 & H).
  apply inv_Grp in H3 as (? & H3 & ->).
  apply inv_Plus in H3 as (nN & -> & -> & HnN & HrN).
  apply inv_Seq in H as (j4 & g4 & H4 & H).
  apply inv_Lit in H4 as (-> & -> & Hl2).
  apply inv_Seq in H as (j5 & g5 & H5 & H).
  apply inv_Lit in H5 as (-> & -> & Hl3).
  apply inv_Seq in H as (j6 & g6 & H6 & H).
  apply inv_Eol in H as (-> & -> & He).
  apply inv_Grp in H6 as (gC & H6 & ->).
  apply inv_Seq in H6 as (j7 & g7 & H7 & H6).
  apply inv_Plus in H7 as (nC & -> & -> & HnC & HrC).
  destruct (plus_drop _ _ _ _ HrT) as (T & HT & HTc & HTl & HTs).
  apply lit_at_drop in Hl1.
  destruct (plus_drop _ _ _ _ HrN) as (N & HN & HNc & HNl & HNs).
  apply lit_at_drop in Hl2. apply lit_at_drop in Hl3.
  destruct (plus_drop _ _ _ _ HrC) as (C & HC & HCc & HCl & HCs).
  set (iC := (0 + nT + length (Text.to_list "-") + nN
              + length (Text.to_list "-") + length (Text.to_list "g"))%nat) in *.
  apply inv_Opt_Lit in H6 as (-> & D & HD & -> & HDd).
  apply at_end_cases in He.
  exists T, N, C, D, (drop (iC + nC + length D) subj).
  split.
  - split.
    + rewrite <- (drop_0 subj) at 1.
      by rewrite HT, Hl1, HN, Hl2, Hl3, HC, HDd.
    + split; [apply nonempty_length; lia|done].
    + split; [apply nonempty_length; lia|done].
    + split; [apply nonempty_length; lia|done].
    + done.
    + done.
  - unfold captures. repeat f_equal; try done.
    unfold substring.
    replace (iC + nC + length D - iC)%nat with (nC + length D)%nat by lia.
    rewrite HC, HDd, <- HCl, app_assoc.
    rewrite <- length_app. apply take_app_length.
Qed.

Lemma at_end_of_drop subj (a : list ascii) i :
  drop i subj = a -> a <> [] -> at_end subj (i + length a) = true.
Proof.
  intros H Ha.
  assert (length (drop i subj) = length a) as Hl by by rewrite H.
  rewrite length_drop in Hl.
  assert (0 < length a)%nat by by apply nonempty_length.
  replace (i + length a)%nat with (length subj) by lia.
  unfold at_end. rewrite drop_all. by apply bool_decide_eq_true.
Qed.

Lemma pattern_complete T N C D subj :
  shape T N C D [] subj -> is_Some (match_at version_pattern subj 0).
Proof.
  intros [Hs [HT HTc] [HN HNc] [HC HCc] HD _].
  assert (drop 0 subj = T ++ dash :: N ++ dash :: gee :: C ++ D ++ []) as D0
    by by rewrite drop_0.
  pose proof (drop_advance _ _ _ _ D0) as D1.
  pose proof (drop_advance _ (Text.to_list "-") _ _ D1) as D2.
  pose proof (drop_advance _ _ _ _ D2) as D3.
  pose proof (drop_advance _ (Text.to_list "-") _ _ D3) as D4.
  pose proof (drop_advance _ (Text.to_list "g") _ _ D4) as D5.
  pose proof (drop_advance _ _ _ _ D5) as D6.
  unfold match_at, version_pattern.
  destruct HD as [->| ->]; (eapply m_complete; [|by eexists]);
    (eapply M_Seq; [apply M_Bol|]);
    (eapply M_Seq;
      [apply M_Grp, (M_Plus _ _ 0 (length T)); [by apply nonempty_length|];
       rewrite D0; by apply run_length_app|]);
    (eapply M_Seq; [apply M_Lit, (lit_at_intro [dash] _ _ _ D1)|]);
    (eapply M_Seq;
      [apply M_Grp, (M_Plus _ _ _ (length N)); [by apply nonempty_length|];
       rewrite D2; by apply run_length_app|]);
    (eapply M_Seq; [apply M_Lit, (lit_at_intro [dash] _ _ _ D3)|]);
    (eapply M_Seq; [apply M_Lit, (lit_at_intro [gee] _ _ _ D4)|]).
  - eapply M_Seq.
    { apply M_Grp. eapply M_Seq; [|apply M_Opt_none].
      apply (M_Plus _ _ _ (length C)); [by apply nonempty_length|].
      rewrite D5. by apply run_length_app. }
    apply M_Eol. apply at_end_of_drop; [|done].
    rewrite D5. by rewrite !app_nil_r.
  - eapply M_Seq.
    { apply M_Grp. eapply M_Seq; [|apply M_Opt_some, M_Lit].
      - apply (M_Plus _ _ _ (length C)); [by apply nonempty_length|].
        rewrite D5. by apply run_length_app.
      - by apply (lit_at_intro _ _ _ []). }
    apply M_Eol. apply at_end_of_drop; [|done].
    rewrite D6. by rewrite app_nil_r.
Qed.

(** ** The decomposition is unique *)

Lemma split_at_last_outsider (P : ascii -> bool) (a a' c c' : list ascii) x x' :
  a ++ x :: c = a' ++ x' :: c' ->
  forallb P c = true -> forallb P c' = true -> P x = false -> P x' = false ->
  a = a' /\ x = x' /\ c = c'.
Proof.
  revert a'. induction a as [|y a IH]; intros [|y' a'] H Hc Hc' Hx Hx'; simpl in *.
  - by injection H as -> ->.
  - injection H as -> ->. rewrite forallb_app in Hc. simpl in Hc.
    rewrite Hx' in Hc. by rewrite andb_false_r in Hc.
  - injection H as -> <-. rewrite forallb_app in Hc'. simpl in Hc'.
    rewrite Hx in Hc'. by rewrite andb_false_r in Hc'.
  - injection H as -> H. destruct (IH a' H) as (-> & -> & ->); done.
Qed.

Lemma last_in_class (P : ascii -> bool) (l : list ascii) :
  l <> [] -> forallb P l = true -> exists c, last l = Some c /\ P c = true.
Proof.
  induction l as [|a [|b l] IH]; intros Hl H; [done| |].
  - exists a. simpl in *. by rewrite andb_true_r in H.
  - simpl in H. apply andb_prop in H as [_ H].
    destruct IH as (c & Hc & HP); [done|done|]. by exists c.
Qed.

(** The last character of an accepted text without the final newline. *)
Lemma shape_last T N C D subj :
  shape T N C D [] subj ->
  exists c, last subj = Some c /\ (is_hex c = true \/ c = "y"%char).
Proof.
  intros [-> _ _ [HC HCc] HD _].
  destruct (last_in_class _ _ HC HCc) as (c & Hc & HP).
  apply last_Some in Hc as [C0 ->].
  destruct HD as [->| ->].
  - exists c. split; [|by left]. apply last_Some.
    exists (T ++ dash :: N ++ dash :: gee :: C0).
    rewrite !app_nil_r.
    repeat (rewrite <- app_assoc || rewrite <- app_comm_cons). done.
  - exists "y"%char. split; [|by right]. apply last_Some.
    exists (T ++ dash :: N ++ dash :: gee :: (C0 ++ [c]) ++ Text.to_list "-dirt").
    repeat (rewrite <- app_assoc || rewrite <- app_comm_cons). done.
Qed.

Lemma shape_no_newline T N C D subj :
  shape T N C D [] subj -> forall l, subj <> l ++ [newline].
Proof.
  intros (c & Hc & Hcls)%shape_last l ->.
  rewrite last_snoc in Hc. injection Hc as <-.
  by destruct Hcls.
Qed.

Lemma shape_unique T N C D T' N' C' D' subj :
  shape T N C D [] subj -> shape T' N' C' D' [] subj ->
  T = T' /\ N = N' /\ C = C' /\ D = D'.
Proof.
  intros S1 S2.
  assert (D = D') as <-.
  { destruct (shape_last _ _ _ _ _ S1) as (c & Hc & Hcls).
    destruct S1 as [E1 _ _ [HC HCc] HD _], S2 as [E2 _ _ [HC' HCc'] HD' _].
    destruct HD as [->| ->], HD' as [->| ->]; try done.
    - destruct (last_in_class _ _ HC HCc) as (x & Hx & HP).
      apply last_Some in Hx as [C0 ->].
      assert (last subj = Some x) as L1.
      { apply last_Some. exists (T ++ dash :: N ++ dash :: gee :: C0).
        rewrite E1, !app_nil_r.
        repeat (rewrite <- app_assoc || rewrite <- app_comm_cons). done. }
      assert (last subj = Some "y"%char) as L2.
      { apply last_Some.
        exists (T' ++ dash :: N' ++ dash :: gee :: C' ++ Text.to_list "-dirt").
        rewrite E2.
        repeat (rewrite <- app_assoc || rewrite <- app_comm_cons). done. }
      rewrite L1 in L2. injection L2 as ->.
      rewrite forallb_app in HCc. simpl in HCc. by rewrite andb_false_r in HCc.
    - destruct (last_in_class _ _ HC' HCc') as (x & Hx & HP).
      apply last_Some in Hx as [C0 ->].
      assert (last subj = Some x) as L1.
      { apply last_Some. exists (T' ++ dash :: N' ++ dash :: gee :: C0).
        rewrite E2, !app_nil_r.
        repeat (rewrite <- app_assoc || rewrite <- app_comm_cons). done. }
      assert (last subj = Some "y"%char) as L2.
      { apply last_Some.
        exists (T ++ dash :: N ++ dash :: gee :: C ++ Text.to_list "-dirt").
        rewrite E1.
        repeat (rewrite <- app_assoc || rewrite <- app_comm_cons). done. }
      rewrite L1 in L2. injection L2 as ->.
      rewrite forallb_app in HCc'. simpl in HCc'. by rewrite andb_false_r in HCc'. }
  destruct S1 as [E1 [_ HTc] [_ HNc] [_ HCc] _ _],
           S2 as [E2 [_ HTc'] [_ HNc'] [_ HCc'] _ _].
  rewrite E1 in E2. rewrite !app_nil_r in E2.
  assert ((T ++ dash :: N ++ [dash]) ++ gee :: C
          = (T' ++ dash :: N' ++ [dash]) ++ gee :: C') as E3.
  { apply (app_inv_tail D).
    repeat (rewrite <- app_assoc || rewrite <- app_comm_cons). exact E2. }
  apply (split_at_last_outsider is_hex) in E3 as (E4 & _ & ->); [|done..].
  assert ((T ++ dash :: N) ++ [dash] = (T' ++ dash :: N') ++ [dash]) as E5.
  { repeat (rewrite <- app_assoc || rewrite <- app_comm_cons). exact E4. }
  apply app_inj_tail in E5 as [E5 _].
  apply (split_at_last_outsider is_digit) in E5 as (-> & _ & ->); done.
Qed.

End PatternFacts.

(** * [describe] outputs and what [generate_version] makes of them *)

Module FormatFacts.
Import Re ReSem ReFacts PatternFacts TextFacts.

Lemma chars_in_nonempty (s : string) : s <> "" <-> Text.to_list s <> [].
Proof. destruct s; simpl; split; done. Qed.

Lemma form_shape tag revs commit dirty output :
  describe_form tag revs commit dirty output ->
  shape (Text.to_list tag) (Text.to_list revs) (Text.to_list commit)
        (Text.to_list dirty) [] (Text.to_list output).
Proof.
  intros [-> [HT HTc] [HN HNc] [HC HCc] HD]. split.
  - rewrite !to_list_app, app_nil_r. done.
  - split; [by apply chars_in_nonempty|done].
  - split; [by apply chars_in_nonempty|done].
  - split; [by apply chars_in_nonempty|done].
  - destruct HD as [->| ->]; [by left|by right].
  - by left.
Qed.

Lemma shape_form T N C D output :
  shape T N C D [] (Text.to_list output) ->
  describe_form (Text.of_list T) (Text.of_list N) (Text.of_list C)
                (Text.of_list D) output.
Proof.
  intros [E [HT HTc] [HN HNc] [HC HCc] HD _]. split.
  - apply to_list_inj. rewrite E, !to_list_app, !to_of_list, app_nil_r. done.
  - split; [apply chars_in_nonempty|unfold chars_in]; by rewrite to_of_list.
  - split; [apply chars_in_nonempty|unfold chars_in]; by rewrite to_of_list.
  - split; [apply chars_in_nonempty|unfold chars_in]; by rewrite to_of_list.
  - destruct HD as [->| ->]; [by left|by right].
Qed.

Lemma format_describe_captures T N C D output :
  search version_pattern output = Some (captures T N C D) ->
  format_describe output
  = Text.of_list T +:+ "+git" +:+ Text.of_list N +:+ "."
    +:+ Text.of_list C +:+ Text.of_list D.
Proof.
  intros H. unfold format_describe. rewrite H. simpl.
  by rewrite of_list_app.
Qed.

(** An output of the tag-relative shape is rewritten part by part. *)
Lemma format_describe_form tag revs commit dirty output :
  describe_form tag revs commit dirty output ->
  format_describe output = tag +:+ "+git" +:+ revs +:+ "." +:+ commit +:+ dirty.
Proof.
  intros Hf. pose proof (form_shape _ _ _ _ _ Hf) as S1.
  destruct (pattern_complete _ _ _ _ _ S1) as [gs Hgs].
  destruct (pattern_sound _ _ Hgs) as (T & N & C & D & E & S2 & ->).
  assert (E = []) as ->.
  { destruct (shape_E _ _ _ _ _ _ S2) as [->| ->]; [done|].
    exfalso.
    apply (shape_no_newline _ _ _ _ _ S1
             (T ++ "-"%char :: N ++ "-"%char :: "g"%char :: C ++ D)).
    rewrite (shape_subj _ _ _ _ _ _ S2).
    repeat (rewrite <- app_assoc || rewrite <- app_comm_cons). done. }
  destruct (shape_unique _ _ _ _ _ _ _ _ _ S1 S2) as (<- & <- & <- & <-).
  rewrite (format_describe_captures (Text.to_list tag) (Text.to_list revs)
             (Text.to_list commit) (Text.to_list dirty)).
  - by rewrite !of_to_list.
  - unfold version_pattern in *. by rewrite search_Bol.
Qed.

(** Any other output that does not end in a newline is left alone. *)
Lemma format_describe_bare output :
  (forall l, Text.to_list output <> l ++ ["010"%char]) ->
  (~ exists tag revs commit dirty, describe_form tag revs commit dirty output) ->
  format_describe output = output.
Proof.
  intros Hnl Hnf. unfold format_describe.
  destruct (search version_pattern output) as [gs|] eqn:Hs; [|done].
  exfalso. unfold version_pattern in Hs. rewrite search_Bol in Hs.
  destruct (pattern_sound _ _ Hs) as (T & N & C & D & E & S2 & ->).
  assert (E = []) as ->.
  { destruct (shape_E _ _ _ _ _ _ S2) as [->| ->]; [done|].
    exfalso.
    apply (Hnl (T ++ "-"%char :: N ++ "-"%char :: "g"%char :: C ++ D)).
    rewrite (shape_subj _ _ _ _ _ _ S2).
    repeat (rewrite <- app_assoc || rewrite <- app_comm_cons). done. }
  apply Hnf. eexists _, _, _, _. by apply shape_form.
Qed.

Lemma strip_no_newline (s : string) (l : list ascii) :
  Text.to_list (Text.strip s) <> l ++ ["010"%char].
Proof. intros H. by apply strip_last in H. Qed.

End FormatFacts.

(** * Version derivation *)

Section GenerateVersion.

Context {World : Type}.
Variable exec : list string -> kwargs -> World -> completed * World.
Variable getcwd : World -> string.

(** [generate_version] as a function of the answers of the two queries. *)
Lemma generate_version_run source_dir (h : heap World) :
  let dir := describe_dir getcwd source_dir (world h) in
  let '(r1, w1) := exec (describe_cmd dir) [("stderr", DEVNULL)] (world h) in
  let '(r2, w2) :=
    exec (describe_always_cmd dir) [("stdout", PIPE); ("stderr", PIPE)] w1 in
  let l1 := log h ++ [(describe_cmd dir, r1)] in
  generate_version exec getcwd source_dir h =
    if bool_decide (returncode r1 = 0)
    then (inr (format_describe (Text.strip (stdout r1))),
          Heap w1 l1 (source_details h))
    else if bool_decide (returncode r2 = 0)
    then (inr ("0+git." +:+ Text.strip (stdout r2)),
          Heap w2 (l1 ++ [(describe_always_cmd dir, r2)]) (source_details h))
    else (inl (VCSError (Text.strip (stderr r2))),
          Heap w2 (l1 ++ [(describe_always_cmd dir, r2)]) (source_details h)).
Proof.
  unfold generate_version, describe_dir, describe_cmd, describe_always_cmd,
    check_output, invoke, try_CalledProcessError, bind, ret, raise.
  destruct source_dir as [[|c d]|]; simpl;
    destruct (exec _ _ (world h)) as [r1 w1] eqn:E1; simpl;
    destruct (exec _ _ w1) as [r2 w2] eqn:E2; simpl;
    case_bool_decide; simpl; try done;
    rewrite E2; simpl; by case_bool_decide.
Qed.

(** C2 (amended).  When the describe query succeeds, an output of the
    shape [<tag>-<N>-g<commit>] with an optional [-dirty] marker whose tag
    is made of characters of [[a-zA-Z0-9.+~-]] only (N decimal, commit
    hexadecimal) yields [<tag>+git<N>.<commit>] with the marker kept after
    the commit; every other output, also one of that shape whose tag has
    a character outside the class, is returned verbatim. *)
Theorem generate_version_describe_output source_dir (h : heap World) out err w1 :
  let dir := describe_dir getcwd source_dir (world h) in
  exec (describe_cmd dir) [("stderr", DEVNULL)] (world h)
    = (Completed 0 out err, w1) ->
  let output := Text.strip out in
  (forall tag revs commit dirty,
      describe_form tag revs commit dirty output ->
      (generate_version exec getcwd source_dir h).1
      = inr (tag +:+ "+git" +:+ revs +:+ "." +:+ commit +:+ dirty))
  /\ ((~ exists tag revs commit dirty, describe_form tag revs commit dirty output) ->
      (generate_version exec getcwd source_dir h).1 = inr output).
Proof.
  intros dir E output.
  pose proof (generate_version_run source_dir h) as R. simpl in R.
  fold dir in R. rewrite E in R.
  destruct (exec (describe_always_cmd dir) _ w1) as [r2 w2].
  simpl in R. rewrite R. simpl. split.
  - intros tag revs commit dirty Hf. f_equal.
    by apply FormatFacts.format_describe_form.
  - intros Hnf. f_equal. apply FormatFacts.format_describe_bare; [|done].
    apply FormatFacts.strip_no_newline.
Qed.

(** C3.  When the describe query fails and the always-succeeding query
    answers, the version is [0+git.] followed by that answer, stripped
    and otherwise verbatim (so a [-dirty] suffix stays). *)
Theorem generate_version_untagged source_dir (h : heap World) r1 w1 r2 w2 :
  let dir := describe_dir getcwd source_dir (world h) in
  exec (describe_cmd dir) [("stderr", DEVNULL)] (world h) = (r1, w1) ->
  returncode r1 <> 0 ->
  exec (describe_always_cmd dir) [("stdout", PIPE); ("stderr", PIPE)] w1
    = (r2, w2) ->
  returncode r2 = 0 ->
  (generate_version exec getcwd source_dir h).1
  = inr ("0+git." +:+ Text.strip (stdout r2)).
Proof.
  intros dir E1 H1 E2 H2.
  pose proof (generate_version_run source_dir h) as R. simpl in R.
  fold dir in R. rewrite E1, E2 in R. rewrite R.
  rewrite bool_decide_eq_false_2 by done.
  by rewrite bool_decide_eq_true_2 by done.
Qed.

(** C7.  [generate_version] fails exactly when both queries exit
    non-zero, and then with the VCS error that carries the stripped
    diagnostic text of the second query. *)
Theorem generate_version_fails_iff source_dir (h : heap World) r1 w1 r2 w2 e :
  let dir := describe_dir getcwd source_dir (world h) in
  exec (describe_cmd dir) [("stderr", DEVNULL)] (world h) = (r1, w1) ->
  exec (describe_always_cmd dir) [("stdout", PIPE); ("stderr", PIPE)] w1
    = (r2, w2) ->
  (generate_version exec getcwd source_dir h).1 = inl e
  <-> returncode r1 <> 0 /\ returncode r2 <> 0
      /\ e = VCSError (Text.strip (stderr r2)).
Proof.
  intros dir E1 E2.
  pose proof (generate_version_run source_dir h) as R. simpl in R.
  fold dir in R. rewrite E1, E2 in R. rewrite R.
  destruct (decide (returncode r1 = 0)) as [H1|H1].
  { rewrite bool_decide_eq_true_2 by done. simpl. split; [done|]. by intros []. }
  rewrite bool_decide_eq_false_2 by done.
  destruct (decide (returncode r2 = 0)) as [H2|H2].
  { rewrite bool_decide_eq_true_2 by done. simpl. split; [done|]. by intros (_ & ? & _). }
  rewrite bool_decide_eq_false_2 by done. simpl. split.
  - by intros [= <-].
  - by intros (_ & _ & ->).
Qed.

End GenerateVersion.

(** A tree three commits ahead of [v1.2], with uncommitted changes. *)
Lemma generate_version_describe_output_witness :
  (generate_version scripted cwd_root (Some "/src")
     (start [ok ("v1.2-3-gabc1234-dirty" +:+ String "010" "")])).1
  = inr "v1.2+git3.abc1234-dirty".
Proof.
  refine (proj1 (generate_version_describe_output scripted cwd_root (Some "/src")
                   (start [ok ("v1.2-3-gabc1234-dirty" +:+ String "010" "")])
                   _ "" [] eq_refl)
                "v1.2" "3" "abc1234" "-dirty" _).
  split; simpl; auto.
Defined.

(** A tree without any tag at short hash [abc1234]. *)
Lemma generate_version_untagged_witness :
  (generate_version scripted cwd_root None
     (start [failed 128 "" "fatal: No names found"; ok ("abc1234" +:+ String "010" "")])).1
  = inr "0+git.abc1234".
Proof.
  refine (generate_version_untagged scripted cwd_root None
            (start [failed 128 "" "fatal: No names found"; ok ("abc1234" +:+ String "010" "")])
            _ _ _ _ eq_refl _ eq_refl eq_refl).
  simpl. lia.
Defined.

(** A directory that is not a repository. *)
Lemma generate_version_fails_iff_witness :
  (generate_version scripted cwd_root (Some "/tmp")
     (start [failed 128 "" ""; failed 128 "" "fatal: not a git repository"])).1
  = inl (VCSError "fatal: not a git repository").
Proof.
  apply (generate_version_fails_iff scripted cwd_root (Some "/tmp")
           (start [failed 128 "" ""; failed 128 "" "fatal: not a git repository"])
           _ _ _ _ _ eq_refl eq_refl).
  simpl. split; [lia|]. split; [lia|reflexivity].
Defined.

(** C2 as stated fails for a tag with a character outside the pattern's
    class: the output [v1_2-3-gabc1234] has the shape, with tag [v1_2],
    and is returned as it is. *)
Lemma describe_tag_outside_class :
  ~ (forall tag revs commit dirty output,
       describe_shape tag revs commit dirty output ->
       (generate_version scripted cwd_root (Some "/parts/src")
          (start [ok output])).1
       = inr (tag +:+ "+git" +:+ revs +:+ "." +:+ commit +:+ dirty)).
Proof.
  intros H.
  specialize (H "v1_2" "3" "abc1234" "" "v1_2-3-gabc1234").
  assert ((generate_version scripted cwd_root (Some "/parts/src")
             (start [ok "v1_2-3-gabc1234"])).1 = inr "v1_2-3-gabc1234") as E
    by reflexivity.
  rewrite H in E; [discriminate E|].
  split; simpl; auto.
Qed.

(** * Reconciliation as command sequences *)

Section RunFacts.

Context {World : Type}.
Variable exec : list string -> kwargs -> World -> completed * World.

Lemma _run_run cmd kw (h : heap World) :
  _run exec cmd kw h =
    let '(r, w') := exec cmd kw (world h) in
    (if bool_decide (returncode r = 0) then inr tt
     else inl (SourceCommandError cmd (returncode r) (stdout r)),
     Heap w' (log h ++ [(cmd, r)]) (source_details h)).
Proof.
  unfold _run, invoke, bind, ret, raise.
  destruct (exec cmd kw (world h)) as [r w']. by case_bool_decide.
Qed.

Lemma foldl_snoc (f : string -> string) (cmd : list string) (l : list string) :
  foldl (fun cmd x => cmd ++ [f x]) cmd l = cmd ++ (f <$> l).
Proof.
  revert cmd. induction l as [|x l IH]; intros cmd; simpl.
  - by rewrite app_nil_r.
  - rewrite IH. by rewrite <- app_assoc.
Qed.

(** The update path issues [pull_existing_plan], in order. *)
Lemma _pull_existing_plan self (h : heap World) :
  _pull_existing exec self h
  = run_all exec (pull_existing_plan self) (_call_kwargs self) h.
Proof.
  unfold _pull_existing, pull_existing_plan, prefetch_cmds, _fetch_origin_commit,
    reset_target, refspec_of, fetch_cmd, reset_cmd, submodule_update_cmd,
    fetch_commit_cmd, git_C, when.
  assert (forall c l : list string, match l with
                      | [] => c
                      | s :: l' => foldl (fun cmd x => cmd ++ [x]) c (s :: l')
                      end = c ++ l) as Hf.
  { intros c [|s l]; [by rewrite app_nil_r|].
    rewrite (foldl_snoc id). by rewrite list_fmap_id. }
  assert (forall c : list string, match source_submodules self with
                    | Some (s :: l) => foldl (fun cmd x => cmd ++ [x]) c (s :: l)
                    | _ => c
                    end = c ++ default [] (source_submodules self)) as Hs.
  { intros c. destruct (source_submodules self) as [l|]; simpl.
    - apply Hf.
    - by rewrite app_nil_r. }
  rewrite Hs. clear Hf Hs.
  destruct (truthy (source_branch self)), (truthy (source_tag self)),
    (truthy (source_commit self)), (submodules_in_scope self); simpl;
    repeat case_bool_decide; try done; simpl;
    unfold bind, ret;
    repeat (match goal with
            | |- context [_run exec ?c ?k ?h'] =>
                destruct (_run exec c k h') as [[?|[]] ?]; simpl; try done
            end).
Qed.

(** The clone path issues [clone_new_plan], in order. *)
Lemma _clone_new_plan self (h : heap World) :
  _clone_new exec self h
  = run_all exec (clone_new_plan self) (_call_kwargs self) h.
Proof.
  unfold _clone_new, clone_new_plan, clone_cmd, clone_submodule_flags, clone_opts,
    pin_commit_cmds, _fetch_origin_commit, fetch_commit_cmd, checkout_cmd, git_C, when.
  assert (match source_submodules self with
          | Some l => foldl (fun cmd x => cmd ++ ["--recursive=" +:+ x])
                            [command self; "clone"] l
          | None => [command self; "clone"] ++ ["--recursive"]
          end
          = [command self; "clone"]
            ++ match source_submodules self with
               | Some l => (fun x => "--recursive=" +:+ x) <$> l
               | None => ["--recursive"]
               end) as ->.
  { destruct (source_submodules self) as [l|]; [|done]. apply foldl_snoc. }
  set (flags := match source_submodules self with
                | Some l => _ | None => _ end).
  destruct (truthy (source_tag self) || truthy (source_branch self)),
    (depth_given self), (truthy (source_commit self)); simpl;
    rewrite <- ?app_assoc; simpl;
    unfold bind, ret;
    repeat (match goal with
            | |- context [_run exec ?c ?k ?h'] =>
                destruct (_run exec c k h') as [[?|[]] ?]; simpl; try done
            end).
Qed.

(** ** What a run leaves behind *)

Lemma tidy_ret {A} (a : A) : tidy (ret (World:=World) a).
Proof. intros h. split; [done|]. exists []. by rewrite app_nil_r. Qed.

Lemma tidy_bind {A B} (c : M World A) (k : A -> M World B) :
  tidy c -> (forall a, tidy (k a)) -> tidy (bind c k).
Proof.
  intros Hc Hk h. unfold bind.
  destruct (Hc h) as (Hd & l & Hl & Hok).
  destruct (c h) as [[e|a] h'] eqn:E; simpl in *.
  - split; [done|]. exists l. split; [done|]. done.
  - destruct (Hk a h') as (Hd' & l' & Hl' & Hok').
    split; [congruence|]. exists (l ++ l'). split.
    + by rewrite Hl', Hl, app_assoc.
    + intros b Hb. apply Forall_app. split; [by apply (Hok a)|by apply (Hok' b)].
Qed.

Lemma tidy__run cmd kw : tidy (_run exec cmd kw).
Proof.
  intros h. rewrite _run_run. destruct (exec cmd kw (world h)) as [r w'].
  simpl. split; [done|]. exists [(cmd, r)]. split; [done|].
  case_bool_decide; [|done]. intros _ _. by apply Forall_singleton.
Qed.

Lemma tidy_run_all cmds kw : tidy (run_all exec cmds kw).
Proof.
  induction cmds as [|c cmds IH]; simpl; [apply tidy_ret|].
  apply tidy_bind; [apply tidy__run|done].
Qed.

Lemma tidy_ext {A} (c c' : M World A) : (forall h, c h = c' h) -> tidy c' -> tidy c.
Proof. intros E H h. rewrite E. apply H. Qed.

Lemma tidy__pull_existing self : tidy (_pull_existing exec self).
Proof. eapply tidy_ext; [apply _pull_existing_plan|apply tidy_run_all]. Qed.

Lemma tidy__clone_new self : tidy (_clone_new exec self).
Proof. eapply tidy_ext; [apply _clone_new_plan|apply tidy_run_all]. Qed.

Lemma tidy__run_output output_text cmd : tidy (_run_output exec output_text cmd).
Proof.
  intros h. unfold _run_output, invoke, bind, ret, raise.
  destruct (exec cmd [] (world h)) as [r w'].
  case_bool_decide; simpl; (split; [done|]); exists [(cmd, r)]; (split; [done|]).
  - intros _ _. by apply Forall_singleton.
  - done.
Qed.

Lemma tidy__get_source_details output_text self :
  tidy (_get_source_details exec output_text self).
Proof.
  unfold _get_source_details. apply tidy_bind.
  - destruct (_ && _).
    + apply tidy_bind; [apply tidy__run_output|]. intros. apply tidy_ret.
    + apply tidy_ret.
  - intros. apply tidy_ret.
Qed.

End RunFacts.

(** * Construction *)

(** What a successful construction tells about the object. *)
Lemma __init___fields src dir tag commit branch depth silent checksum subs self :
  __init__ src dir tag commit branch depth silent checksum subs = inr self ->
  source_tag self = tag /\ source_commit self = commit
  /\ source_branch self = branch /\ source_checksum self = checksum
  /\ source_submodules self = subs /\ source self = src
  /\ source_dir self = dir /\ command self = "git"
  /\ (selectors_given tag commit branch <= 1)%nat /\ truthy checksum = false.
Proof.
  unfold __init__, selectors_given.
  destruct (truthy tag), (truthy branch), (truthy commit), (truthy checksum);
    simpl; try done; intros [= <-]; simpl; repeat split; lia.
Qed.

(** One direction-pair of the case analysis on the four truth values. *)
Ltac init_case :=
  split;
  [ intros [? ?];
    first [ discriminate
          | right; reflexivity
          | left; lia
          | split; [lia|reflexivity] ]
  | intros ?;
    first [ by eexists
          | exfalso; intuition (lia || discriminate) ] ].

(** C4.  Construction fails exactly when two or more of tag, branch and
    commit are given or a checksum is given, always with one of the two
    configuration errors; otherwise it succeeds.  "Given" is Python
    truthiness: neither [None] nor the empty string. *)
Theorem init_config_conflict src dir tag commit branch depth silent checksum subs :
  let made := __init__ src dir tag commit branch depth silent checksum subs in
  (forall e, made = inl e -> ConfigConflict e)
  /\ ((exists e, made = inl e)
      <-> (2 <= selectors_given tag commit branch)%nat \/ truthy checksum = true)
  /\ ((exists self, made = inr self)
      <-> (selectors_given tag commit branch <= 1)%nat /\ truthy checksum = false).
Proof.
  unfold __init__, selectors_given.
  destruct (truthy tag), (truthy branch), (truthy commit), (truthy checksum);
    simpl; (split_and!; [by intros e [= <-]|init_case..]).
Qed.

(** One selector and no checksum: the source is constructed. *)
Lemma init_config_conflict_witness :
  exists self,
    __init__ "https://example.org/r.git" "/parts/src" (Some "v1.2") None None
             None false None None = inr self.
Proof.
  apply (proj2 (proj2 (init_config_conflict
                         "https://example.org/r.git" "/parts/src" (Some "v1.2")
                         None None None false None None))).
  split; [vm_compute; lia|reflexivity].
Defined.

(** * The update-in-place path *)

Section UpdatePath.

Context {World : Type}.
Variable exec : list string -> kwargs -> World -> completed * World.


End UpdatePath.



(** * Submodule selection *)

Section Submodules.

Context {World : Type}.
Variable exec : list string -> kwargs -> World -> completed * World.

(** C5 (amended).  On both paths an explicitly empty submodule list leaves
    every command free of submodule flags and steps, and no list at all
    means recursion into all submodules.  A non-empty list restricts the
    [submodule update] step of the update path and the recursion of the
    clone to exactly the named submodules, one [--recursive=<name>] per
    name; the fetch of the update path still carries
    [--recurse-submodules=yes] and names none of them. *)
Theorem submodule_selection self (h : heap World) :
  let kw := _call_kwargs self in
  let pre := prefetch_cmds self in
  let reset := reset_cmd self (reset_target self) in
  let clone flags :=
    ([command self; "clone"] ++ flags ++ clone_opts self
     ++ [source self; source_dir self]) :: pin_commit_cmds self in
  (source_submodules self = Some [] ->
     _pull_existing exec self h
     = run_all exec (pre ++ [git_C self ["fetch"; "--prune"]; reset]) kw h
     /\ _clone_new exec self h = run_all exec (clone []) kw h)
  /\ (forall s l, source_submodules self = Some (s :: l) ->
     _pull_existing exec self h
     = run_all exec
         (pre ++ [git_C self ["fetch"; "--prune"; "--recurse-submodules=yes"];
                  reset;
                  git_C self (["submodule"; "update"; "--recursive"; "--force"]
                              ++ s :: l)]) kw h
     /\ _clone_new exec self h
        = run_all exec
            (clone ((fun name => "--recursive=" +:+ name) <$> s :: l)) kw h)
  /\ (source_submodules self = None ->
     _pull_existing exec self h
     = run_all exec
         (pre ++ [git_C self ["fetch"; "--prune"; "--recurse-submodules=yes"];
                  reset;
                  git_C self ["submodule"; "update"; "--recursive"; "--force"]]) kw h
     /\ _clone_new exec self h = run_all exec (clone ["--recursive"]) kw h).
Proof.
  simpl. rewrite _pull_existing_plan, _clone_new_plan.
  unfold pull_existing_plan, clone_new_plan, clone_cmd, clone_submodule_flags,
    submodules_in_scope, fetch_cmd, submodule_update_cmd.
  split_and!.
  - by intros ->.
  - by intros s l ->.
  - by intros ->.
Qed.

End Submodules.

(** A source with one named submodule, updated in place and cloned. *)
Lemma submodule_selection_witness :
  let self :=
    {| source := "https://example.org/r.git"; source_dir := "/parts/src";
       source_tag := None; source_commit := None; source_branch := None;
       source_depth := None; source_checksum := None;
       source_submodules := Some ["libfoo"];
       command := "git"; _call_kwargs := [] |} in
  commands (_pull_existing scripted self (start [])).2
  = [["git"; "-C"; "/parts/src"; "fetch"; "--prune"; "--recurse-submodules=yes"];
     ["git"; "-C"; "/parts/src"; "reset"; "--hard"; "origin/master"];
     ["git"; "-C"; "/parts/src"; "submodule"; "update"; "--recursive"; "--force";
      "libfoo"]]
  /\ commands (_clone_new scripted self (start [])).2
     = [["git"; "clone"; "--recursive=libfoo"; "https://example.org/r.git";
         "/parts/src"]].
Proof.
  intros self.
  destruct (proj1 (proj2 (submodule_selection scripted self (start [])))
              "libfoo" [] eq_refl) as [-> ->].
  split; reflexivity.
Defined.

(** C5 as stated fails on the update path: with a named submodule the
    fetch is a submodule step that does not name it. *)
Lemma submodule_fetch_not_restricted :
  ~ (forall (self : Git) (names : list string) (h : heap (list completed)),
       source_submodules self = Some names -> names <> [] ->
       forall cmd, cmd ∈ commands (_pull_existing scripted self h).2 ->
         submodule_step cmd = true ->
         forall name, name ∈ names -> names_submodule cmd name = true).
Proof.
  intros H.
  specialize (H {| source := "https://example.org/r.git"; source_dir := "/parts/src";
                   source_tag := None; source_commit := None; source_branch := None;
                   source_depth := None; source_checksum := None;
                   source_submodules := Some ["libfoo"];
                   command := "git"; _call_kwargs := [] |}
                ["libfoo"] (start []) eq_refl ltac:(discriminate)
                ["git"; "-C"; "/parts/src"; "fetch"; "--prune";
                 "--recurse-submodules=yes"]).
  assert (names_submodule
            ["git"; "-C"; "/parts/src"; "fetch"; "--prune"; "--recurse-submodules=yes"]
            "libfoo" = true) as E.
  { apply H.
    - apply list_elem_of_lookup. by exists 0%nat.
    - reflexivity.
    - apply list_elem_of_lookup. by exists 0%nat. }
  discriminate E.
Qed.

(** * Reconciliation and the recorded details *)

Section Pull.

Context {World : Type}.
Variable exec : list string -> kwargs -> World -> completed * World.
Variable path_exists : string -> World -> bool.
Variable output_text : string -> string.

Local Abbreviation pull_prefix := (pull_prefix exec path_exists output_text).

Lemma pull_run self (h : heap World) :
  pull exec path_exists output_text self h =
    match pull_prefix self h with
    | (inr d, h') => (inr tt, Heap (world h') (log h') (Some d))
    | (inl e, h') => (inl e, h')
    end.
Proof.
  unfold pull, pull_prefix, bind, is_local, set_source_details.
  destruct (path_exists _ _);
    [destruct (_pull_existing exec self h) as [[e|[]] h1]
    |destruct (_clone_new exec self h) as [[e|[]] h1]]; try done;
    by destruct (_get_source_details exec output_text self h1) as [[e|d] h2].
Qed.

Lemma tidy_pull_prefix self : tidy (pull_prefix self).
Proof.
  unfold pull_prefix. apply tidy_bind.
  - intros h. split; [done|]. exists []. by rewrite app_nil_r.
  - intros local. apply tidy_bind.
    + destruct local; [apply tidy__pull_existing|apply tidy__clone_new].
    + intros _. apply tidy__get_source_details.
Qed.

(** C10.  [pull] records the details only after every command of the
    chosen path, and the query for the commit, has exited with zero; when
    any of them fails, the details recorded before are still in place. *)
Theorem pull_records_details_last self (h : heap World) :
  let run := pull exec path_exists output_text self h in
  (run.1 = inr tt ->
     is_Some (source_details run.2)
     /\ Forall (fun call => returncode call.2 = 0)
               (new_calls (pull exec path_exists output_text self) h))
  /\ (forall e, run.1 = inl e -> source_details run.2 = source_details h).
Proof.
  simpl. unfold new_calls. rewrite pull_run.
  destruct (tidy_pull_prefix self h) as (Hd & l & Hl & Hok).
  destruct (pull_prefix self h) as [[e|d] h'] eqn:E; simpl in *.
  - split; [done|]. by intros e' _.
  - split; [|done]. intros _. split; [by eexists|].
    rewrite Hl, drop_app_length. by apply (Hok d).
Qed.

End Pull.

(** The reset of an update fails: nothing is recorded. *)
Lemma pull_records_details_last_witness :
  let self := Build_Git "https://example.org/r.git" "/parts/src" None None None
                        None None None "git" [] in
  source_details
    (pull scripted all_paths text_id self (start [ok ""; failed 128 "" "fatal"])).2
  = None.
Proof.
  intros self.
  apply (proj2 (pull_records_details_last scripted all_paths text_id self
                  (start [ok ""; failed 128 "" "fatal"]))
               (SourceCommandError
                  ["git"; "-C"; "/parts/src"; "reset"; "--hard"; "origin/master"]
                  128 "")).
  reflexivity.
Defined.

(** * The details mapping *)

Section Details.

Context {World : Type}.
Variable exec : list string -> kwargs -> World -> completed * World.
Variable path_exists : string -> World -> bool.
Variable output_text : string -> string.

Lemma _get_source_details_run self (h : heap World) :
  _get_source_details exec output_text self h =
    if no_selector self then
      let '(r, w') := exec (rev_parse_cmd self) [] (world h) in
      (if bool_decide (returncode r = 0)
       then inr (details_of self (Some (output_text (stdout r))))
       else inl (SourceCommandError (rev_parse_cmd self) (returncode r) (stdout r)),
       Heap w' (log h ++ [(rev_parse_cmd self, r)]) (source_details h))
    else (inr (details_of self (source_commit self)), h).
Proof.
  unfold _get_source_details, no_selector, _run_output, invoke, bind, ret, raise,
    rev_parse_cmd, details_of.
  destruct (_ && _); [|done].
  destruct (exec _ [] (world h)) as [r w']. by case_bool_decide.
Qed.

Lemma details_of_dom self c : dom (details_of self c) = details_keys.
Proof. unfold details_of, details_keys. rewrite !dom_insert_L. set_solver. Qed.

Lemma falsy_cases (o : option string) : truthy o = false -> o = None \/ o = Some "".
Proof. destruct o as [[|c s]|]; simpl; auto. discriminate. Qed.

Lemma _get_source_details_ok
    src dir tag commit branch depth silent checksum subs self (h1 h2 : heap World) d :
  __init__ src dir tag commit branch depth silent checksum subs = inr self ->
  _get_source_details exec output_text self h1 = (inr d, h2) ->
  dom d = details_keys
  /\ d !! "source-checksum" = Some checksum
  /\ (checksum = None \/ checksum = Some "")
  /\ d !! "source-tag" = Some tag
  /\ d !! "source-branch" = Some branch
  /\ d !! "source" = Some (Some src)
  /\ (truthy tag = false -> truthy branch = false -> truthy commit = false ->
      exists res,
        last (log h2) = Some (rev_parse_cmd self, res)
        /\ returncode res = 0
        /\ d !! "source-commit" = Some (Some (output_text (stdout res))))
  /\ (truthy tag || truthy branch || truthy commit = true ->
      d !! "source-commit" = Some commit).
Proof.
  intros Hi.
  destruct (__init___fields _ _ _ _ _ _ _ _ _ _ Hi)
    as (Ht & Hc & Hb & Hk & _ & Hs & _ & _ & _ & Hck).
  rewrite _get_source_details_run. unfold no_selector.
  rewrite Ht, Hb, Hc.
  destruct (truthy tag) eqn:Et, (truthy branch) eqn:Eb, (truthy commit) eqn:Ec;
    simpl;
    try (intros [= <- <-]; rewrite details_of_dom; unfold details_of;
         rewrite ?Ht, ?Hb, ?Hc, ?Hk, ?Hs;
         split_and!; try done; by apply falsy_cases).
  destruct (exec _ [] (world h1)) as [r w'].
  case_bool_decide as Hr; [|done].
  intros [= <- <-]. rewrite details_of_dom. unfold details_of.
  rewrite ?Ht, ?Hb, ?Hk, ?Hs.
  split_and!; try done; [by apply falsy_cases|].
  intros _ _ _. exists r. simpl. by rewrite last_snoc.
Qed.

(** C8 (amended).  After a successful reconciliation of a constructed
    source the recorded mapping has exactly the five keys; source-checksum
    is the checksum the constructor received, which is null or the empty
    string; source-tag, source-branch and source are the constructor's
    values; with no selector given source-commit is the text of what
    [rev-parse HEAD] printed (the last command run), otherwise it is the
    constructor's commit. *)
Theorem source_details_after_pull
    src dir tag commit branch depth silent checksum subs self (h : heap World) :
  __init__ src dir tag commit branch depth silent checksum subs = inr self ->
  let run := pull exec path_exists output_text self h in
  run.1 = inr tt ->
  exists d,
    source_details run.2 = Some d
    /\ dom d = details_keys
    /\ d !! "source-checksum" = Some checksum
    /\ (checksum = None \/ checksum = Some "")
    /\ d !! "source-tag" = Some tag
    /\ d !! "source-branch" = Some branch
    /\ d !! "source" = Some (Some src)
    /\ (truthy tag = false -> truthy branch = false -> truthy commit = false ->
        exists res,
          last (log run.2) = Some (rev_parse_cmd self, res)
          /\ returncode res = 0
          /\ d !! "source-commit" = Some (Some (output_text (stdout res))))
    /\ (truthy tag || truthy branch || truthy commit = true ->
        d !! "source-commit" = Some commit).
Proof.
  intros Hi run. subst run.
  rewrite pull_run. unfold pull_prefix, bind, is_local.
  destruct (path_exists _ _);
    [destruct (_pull_existing exec self h) as [[e|[]] h1]
    |destruct (_clone_new exec self h) as [[e|[]] h1]]; simpl; try done;
    (destruct (_get_source_details exec output_text self h1) as [[e|d] h2] eqn:E2;
     simpl; [done|]; intros _; exists d; split; [done|];
     by apply (_get_source_details_ok _ _ _ _ _ _ _ _ _ _ _ _ _ Hi E2)).
Qed.

End Details.

(** An update of a source without selectors, at commit [deadbeef]. *)
Lemma source_details_after_pull_witness :
  let self := Build_Git "https://example.org/r.git" "/parts/src" None None None
                        None None None "git" [] in
  let run := pull scripted all_paths text_id self
                  (start [ok ""; ok ""; ok ""; ok "deadbeef"]) in
  exists d,
    source_details run.2 = Some d
    /\ dom d = details_keys
    /\ d !! "source-checksum" = Some None
    /\ d !! "source-commit" = Some (Some "deadbeef").
Proof.
  intros self run.
  destruct (source_details_after_pull scripted all_paths text_id
              "https://example.org/r.git" "/parts/src" None None None None false
              None None self (start [ok ""; ok ""; ok ""; ok "deadbeef"])
              eq_refl eq_refl)
    as (d & Hd & Hdom & Hck & _ & _ & _ & _ & Hcommit & _).
  exists d. split_and!; try done.
  destruct (Hcommit eq_refl eq_refl eq_refl) as (res & Hlast & _ & ->).
  by injection Hlast as <-.
Defined.

(** C8 as stated fails for a source constructed with an empty checksum
    string: construction accepts it, and the mapping then holds the empty
    string, not null. *)
Lemma source_checksum_empty_not_null :
  ~ (forall src dir checksum self (h : heap (list completed)),
       __init__ src dir None None None None false checksum None = inr self ->
       (pull scripted all_paths text_id self h).1 = inr tt ->
       exists d,
         source_details (pull scripted all_paths text_id self h).2 = Some d
         /\ d !! "source-checksum" = Some None).
Proof.
  intros H.
  destruct (H "https://example.org/r.git" "/parts/src" (Some "") _ (start [])
              eq_refl eq_refl) as (d & Hd & Hck).
  injection Hd as <-. discriminate Hck.
Qed.

(** * Staging a file *)

(** C9.  [add] decides by a character-prefix test.  A file in a sibling
    directory whose name merely starts with the target directory's name is
    not under the target directory, and yet its path is rewritten relative
    to it instead of being passed on unchanged. *)
Theorem add_rewrites_sibling_path :
  let self := Build_Git "https://example.org/r.git" "/tmp/foo" None None None
                        None None None "git" [] in
  ~ falls_under "/" "/tmp/foo" "/tmp/foobar/x"
  /\ Text.startswith "/tmp/foobar/x" (source_dir self) = true
  /\ commands (add scripted cwd_root self "/tmp/foobar/x" (start [])).2
     = [["git"; "-C"; "/tmp/foo"; "add"; "../foobar/x"]].
Proof.
  intros self. split_and!; [|reflexivity..].
  intros [k Hk]. vm_compute in Hk. discriminate Hk.
Qed.

(** * Reconciliation, command by command *)

Section PullTrace.

Context {World : Type}.
Variable exec : list string -> kwargs -> World -> completed * World.
Variable path_exists : string -> World -> bool.
Variable output_text : string -> string.

Lemma follows_ret {A} (a : A) : follows [] (ret (World:=World) a).
Proof.
  intros h. exists []. simpl. rewrite app_nil_r. split_and!; done.
Qed.

Lemma follows_bind {A B} p1 p2 (c : M World A) (k : A -> M World B) :
  follows p1 c -> (forall a, follows p2 (k a)) -> follows (p1 ++ p2) (bind c k).
Proof.
  intros Hc Hk h. unfold bind.
  destruct (Hc h) as (l & Hl & Hp & Hr).
  destruct (c h) as [[e|a] h'] eqn:E; simpl in *.
  - exists l. split; [done|]. split; [by apply prefix_app_r|done].
  - destruct Hr as [Hp1 Hok].
    destruct (Hk a h') as (l' & Hl' & Hp' & Hr').
    exists (l ++ l'). split; [by rewrite Hl', Hl, app_assoc|].
    rewrite fmap_app, Hp1. split; [by apply prefix_app|].
    destruct ((k a h').1) as [e|b].
    + destruct Hr' as (l0 & cmd & res & -> & Hok0 & Hrc & ->).
      exists (l ++ l0), cmd, res. rewrite app_assoc. split_and!; try done.
      by apply Forall_app.
    + destruct Hr' as [-> Hok']. split; [done|]. by apply Forall_app.
Qed.

Lemma follows__run cmd kw : follows [cmd] (_run exec cmd kw).
Proof.
  intros h. rewrite _run_run. destruct (exec cmd kw (world h)) as [r w'].
  exists [(cmd, r)]. simpl. split; [done|]. split; [done|].
  case_bool_decide.
  - split; [done|]. by apply Forall_singleton.
  - by exists [], cmd, r.
Qed.

Lemma follows_run_all cmds kw : follows cmds (run_all exec cmds kw).
Proof.
  induction cmds as [|c cmds IH]; simpl; [apply follows_ret|].
  apply (follows_bind [c] cmds); [apply follows__run|done].
Qed.

Lemma follows_ext {A} plan (c c' : M World A) :
  (forall h, c h = c' h) -> follows plan c' -> follows plan c.
Proof. intros E H h. rewrite E. apply H. Qed.

Lemma follows__get_source_details self :
  follows (if no_selector self then [rev_parse_cmd self] else [])
          (_get_source_details exec output_text self).
Proof.
  intros h. rewrite _get_source_details_run.
  destruct (no_selector self).
  - destruct (exec _ [] (world h)) as [r w'].
    exists [(rev_parse_cmd self, r)]. simpl. split; [done|]. split; [done|].
    case_bool_decide.
    + split; [done|]. by apply Forall_singleton.
    + by exists [], (rev_parse_cmd self), r.
  - exists []. simpl. rewrite app_nil_r. split_and!; done.
Qed.

Lemma follows_pull_prefix self (h : heap World) :
  let local := path_exists (OsPath.join (source_dir self) [".git"]) (world h) in
  exists c : M World details,
    follows (pull_plan self local) c
    /\ pull_prefix exec path_exists output_text self h = c h.
Proof.
  simpl.
  exists (bind (if path_exists (OsPath.join (source_dir self) [".git"]) (world h)
                then _pull_existing exec self else _clone_new exec self)
               (fun _ => _get_source_details exec output_text self)).
  split; [|done].
  unfold pull_plan. apply follows_bind.
  - destruct (path_exists _ _).
    + eapply follows_ext; [apply _pull_existing_plan|apply follows_run_all].
    + eapply follows_ext; [apply _clone_new_plan|apply follows_run_all].
  - intros _. apply follows__get_source_details.
Qed.

(** X1.  A [pull] that returns normally has issued, in order, every
    command of the update path when the target directory holds a [.git]
    entry and of the clone path when it does not, followed by
    [rev-parse HEAD] when no selector is given — and nothing else. *)
Theorem pull_issues_whole_plan self (h : heap World) :
  let local := path_exists (OsPath.join (source_dir self) [".git"]) (world h) in
  (pull exec path_exists output_text self h).1 = inr tt ->
  (new_calls (pull exec path_exists output_text self) h).*1
  = (if local then pull_existing_plan self else clone_new_plan self)
    ++ (if no_selector self then [rev_parse_cmd self] else []).
Proof.
  simpl. unfold new_calls. rewrite pull_run.
  destruct (follows_pull_prefix self h) as (c & Hc & ->).
  destruct (Hc h) as (l & Hl & _ & Hr).
  destruct (c h) as [[e|d] h']; simpl in *; [done|].
  intros _. rewrite Hl, drop_app_length. by destruct Hr.
Qed.

(** X2.  A [pull] that fails has issued a prefix of the path's commands;
    the last command issued is the one that exited non-zero, every
    earlier one exited with zero, and the error raised is the command
    error for that last command: nothing runs after a failure. *)
Theorem pull_stops_at_first_failure self (h : heap World) e :
  let local := path_exists (OsPath.join (source_dir self) [".git"]) (world h) in
  (pull exec path_exists output_text self h).1 = inl e ->
  exists earlier cmd res,
    new_calls (pull exec path_exists output_text self) h = earlier ++ [(cmd, res)]
    /\ (earlier.*1 ++ [cmd]) `prefix_of` pull_plan self local
    /\ Forall (fun call => returncode call.2 = 0) earlier
    /\ returncode res <> 0
    /\ e = SourceCommandError cmd (returncode res) (stdout res).
Proof.
  simpl. unfold new_calls. rewrite pull_run.
  destruct (follows_pull_prefix self h) as (c & Hc & ->).
  destruct (Hc h) as (l & Hl & Hp & Hr).
  destruct (c h) as [[e'|d] h']; simpl in *; [|done].
  intros [= ->]. destruct Hr as (l0 & cmd & res & -> & Hok & Hrc & ->).
  exists l0, cmd, res. rewrite Hl, drop_app_length.
  split_and!; try done. by rewrite fmap_app in Hp.
Qed.

End PullTrace.

(** An update in place of a source without selectors. *)
Lemma pull_issues_whole_plan_witness :
  let self := Build_Git "https://example.org/r.git" "/parts/src" None None None
                        None None None "git" [] in
  (new_calls (pull scripted all_paths text_id self) (start [])).*1
  = [["git"; "-C"; "/parts/src"; "fetch"; "--prune"; "--recurse-submodules=yes"];
     ["git"; "-C"; "/parts/src"; "reset"; "--hard"; "origin/master"];
     ["git"; "-C"; "/parts/src"; "submodule"; "update"; "--recursive"; "--force"];
     ["git"; "-C"; "/parts/src"; "rev-parse"; "HEAD"]].
Proof.
  intros self.
  apply (pull_issues_whole_plan scripted all_paths text_id self (start []) eq_refl).
Defined.

(** A clone whose fetch of the pinned commit fails: no checkout follows. *)
Lemma pull_stops_at_first_failure_witness :
  let self := Build_Git "https://example.org/r.git" "/parts/src" None
                        (Some "0123abc") None None None None "git" [] in
  exists earlier cmd res,
    new_calls (pull scripted no_paths text_id self)
              (start [ok ""; failed 128 "" "fatal"])
    = earlier ++ [(cmd, res)]
    /\ (earlier.*1 ++ [cmd]) `prefix_of` pull_plan self false
    /\ Forall (fun call => returncode call.2 = 0) earlier
    /\ returncode res <> 0
    /\ SourceCommandError ["git"; "-C"; "/parts/src"; "fetch"; "origin"; "0123abc"]
                          128 ""
       = SourceCommandError cmd (returncode res) (stdout res).
Proof.
  intros self.
  apply (pull_stops_at_first_failure scripted no_paths text_id self
           (start [ok ""; failed 128 "" "fatal"]) _ eq_refl).
Defined.

(** * Failing invocations *)

Section CommandErrors.

Context {World : Type}.
Variable exec : list string -> kwargs -> World -> completed * World.
Variable getcwd : World -> string.
Variable path_exists : string -> World -> bool.
Variable output_text : string -> string.

Lemma _run_git_command_run cmd (h : heap World) :
  _run_git_command exec cmd h =
    let '(r, w') := exec cmd [] (world h) in
    (if bool_decide (returncode r = 0) then inr tt
     else inl (GitCommandError cmd (returncode r) (stdout r)),
     Heap w' (log h ++ [(cmd, r)]) (source_details h)).
Proof.
  unfold _run_git_command, check_output, invoke, bind, ret, raise.
  destruct (exec cmd [] (world h)) as [r w']. by case_bool_decide.
Qed.

Lemma _run_git_command_stops cmd :
  stops_at_nonzero_exit (_run_git_command exec cmd).
Proof.
  intros h c res. unfold new_calls. rewrite _run_git_command_run.
  destruct (exec cmd [] (world h)) as [r w']. simpl.
  rewrite drop_app_length. intros [= -> ->]%list_elem_of_singleton Hrc.
  split.
  - left. by rewrite bool_decide_eq_false_2.
  - by exists [].
Qed.

Lemma pull_stops self : stops_at_nonzero_exit (pull exec path_exists output_text self).
Proof.
  intros h cmd res. unfold new_calls. rewrite pull_run.
  destruct (follows_pull_prefix exec path_exists output_text self h)
    as (c & Hf & ->).
  destruct (Hf h) as (l & Hl & _ & Hr).
  destruct (c h) as [[e|d] h']; simpl in *;
    rewrite Hl, drop_app_length; intros Hin Hrc.
  - destruct Hr as (l0 & cmd' & res' & -> & Hok & Hrc' & ->).
    apply elem_of_app in Hin as [Hin|Hin].
    + exfalso. apply (proj1 (Forall_forall _ _) Hok) in Hin. done.
    + apply list_elem_of_singleton in Hin as [= -> ->].
      split; [by right|]. by exists l0.
  - exfalso. destruct Hr as [_ Hok].
    apply (proj1 (Forall_forall _ _) Hok) in Hin. done.
Qed.

(** C6 (amended).  Every invocation made by a reconciliation ([pull], on
    either path and in its query for the commit) and by [init], [add],
    [commit] and [push] that exits non-zero ends the operation at once
    with the command error that carries the exact command list, the exit
    code and the captured output; it is the last invocation made, so the
    command is not run again.  An invocation through [_run_git_command] is
    made exactly once.  The describe query of [generate_version] and the
    [git version] probe are outside this rule. *)
Theorem run_git_command_failure cmd (h : heap World) self url refspec force
    file message author :
  let res := (exec cmd [] (world h)).1 in
  log (_run_git_command exec cmd h).2 = log h ++ [(cmd, res)]
  /\ (returncode res <> 0 ->
      (_run_git_command exec cmd h).1
      = inl (GitCommandError cmd (returncode res) (stdout res)))
  /\ stops_at_nonzero_exit (pull exec path_exists output_text self)
  /\ stops_at_nonzero_exit (init exec self)
  /\ stops_at_nonzero_exit (add exec getcwd self file)
  /\ stops_at_nonzero_exit (commit exec self message author)
  /\ stops_at_nonzero_exit (push exec self url refspec force).
Proof.
  simpl. split_and!.
  - rewrite _run_git_command_run. by destruct (exec cmd [] (world h)).
  - rewrite _run_git_command_run. destruct (exec cmd [] (world h)) as [r w'].
    simpl. intros Hrc. by rewrite bool_decide_eq_false_2.
  - apply pull_stops.
  - apply _run_git_command_stops.
  - intros h0 c res. unfold new_calls, add, bind, ret.
    destruct (Text.startswith file (source_dir self)).
    + destruct (OsPath.relpath _ _ _) as [rel|].
      * apply (_run_git_command_stops _ h0 c res).
      * simpl. rewrite drop_all. by intros ?%elem_of_nil.
    + apply (_run_git_command_stops _ h0 c res).
  - apply _run_git_command_stops.
  - apply _run_git_command_stops.
Qed.

End CommandErrors.

(** A reconciliation whose first fetch fails, and a push that is rejected. *)
Lemma run_git_command_failure_witness :
  let self := Build_Git "https://example.org/r.git" "/parts/src" None None None
                        None None None "git" [] in
  (pull scripted all_paths text_id self (start [failed 128 "" "fatal"])).1
  = inl (SourceCommandError
           ["git"; "-C"; "/parts/src"; "fetch"; "--prune"; "--recurse-submodules=yes"]
           128 "")
  /\ (_run_git_command scripted ["git"; "-C"; "/parts/src"; "push"; "origin"; "main"]
        (start [failed 1 "rejected" ""])).1
     = inl (GitCommandError ["git"; "-C"; "/parts/src"; "push"; "origin"; "main"]
                            1 "rejected").
Proof.
  intros self.
  destruct (run_git_command_failure scripted cwd_root all_paths text_id
              ["git"; "-C"; "/parts/src"; "push"; "origin"; "main"]
              (start [failed 1 "rejected" ""]) self "" "" false "" "" None)
    as (_ & Hpush & Hpull & _).
  split.
  - destruct (Hpull (start [failed 128 "" "fatal"])
                ["git"; "-C"; "/parts/src"; "fetch"; "--prune";
                 "--recurse-submodules=yes"]
                (failed 128 "" "fatal")) as [[H|H] _].
    + apply list_elem_of_lookup. by exists 0%nat.
    + simpl. lia.
    + discriminate H.
    + exact H.
  - apply Hpush. simpl. lia.
Defined.

(** C6 as stated fails in two places.  The describe query of
    [generate_version] exits non-zero and the operation goes on to the
    fallback query and returns a version.  The [git version] probe exits
    non-zero and what escapes is the process error, not a command
    error. *)
Lemma describe_and_version_failures_escape :
  ~ nonzero_exit_is_fatal (generate_version scripted cwd_root (Some "/parts/src"))
  /\ (version (fun _ _ (w : unit) => (Ran (failed 1 "" "broken"), w)) tt).1
     = inl (Raised (CalledProcessError 1 ["git"; "version"] "")).
Proof.
  split; [|reflexivity].
  intros H.
  specialize (H (start [failed 128 "" "fatal: No names found";
                        ok ("abc1234" +:+ String "010" "")])
                (describe_cmd "/parts/src")
                (failed 128 "" "fatal: No names found")).
  destruct H as [H|H].
  - apply list_elem_of_lookup. by exists 0%nat.
  - simpl. lia.
  - discriminate H.
  - discriminate H.
Qed.

(** * The clone path and the constructor's errors *)

Section ClonePath.

Context {World : Type}.
Variable exec : list string -> kwargs -> World -> completed * World.

(** X3.  For a constructed source the clone path runs [git clone] with
    the submodule flags, then [--branch <tag>] or [--branch <branch>] when
    one of the two is given, then [--depth <n>] unless the depth is absent
    or zero, then the source and the target directory.  Only when a commit
    is given do two more commands follow: the fetch of that commit from
    [origin] and its checkout; the commit is never passed as [--branch]. *)
Theorem clone_new_commands
    src dir tag commit branch depth silent checksum subs self (h : heap World) :
  __init__ src dir tag commit branch depth silent checksum subs = inr self ->
  let clone ref_opts :=
    ["git"; "clone"] ++ clone_submodule_flags self ++ ref_opts
    ++ depth_opts depth ++ [src; dir] in
  let runs cmds := _clone_new exec self h = run_all exec cmds (_call_kwargs self) h in
  (forall t, tag = Some t -> t <> "" -> runs [clone ["--branch"; t]])
  /\ (forall b, branch = Some b -> b <> "" -> runs [clone ["--branch"; b]])
  /\ (forall c, commit = Some c -> c <> "" ->
        runs [clone [];
              ["git"; "-C"; dir; "fetch"; "origin"; c];
              ["git"; "-C"; dir; "checkout"; c]])
  /\ (truthy tag = false -> truthy branch = false -> truthy commit = false ->
        runs [clone []]).
Proof.
  intros Hi. simpl.
  destruct (__init___fields _ _ _ _ _ _ _ _ _ _ Hi)
    as (Ht & Hc & Hb & _ & _ & Hs & Hd & Hcmd & Hsel & _).
  assert (source_depth self = depth) as Hdp.
  { revert Hi. unfold __init__. repeat destruct (_ && _); try done.
    destruct (truthy checksum); [done|]. by intros [= <-]. }
  unfold selectors_given in Hsel.
  rewrite !_clone_new_plan.
  unfold clone_new_plan, clone_cmd, clone_opts, pin_commit_cmds, tag_or_branch,
    depth_given, depth_opts, fetch_commit_cmd, checkout_cmd, git_C.
  rewrite Ht, Hc, Hb, Hs, Hd, Hcmd, Hdp.
  assert ((if match depth with
              | Some d => negb (bool_decide (d = 0))
              | None => false
              end
           then ["--depth"; pretty (default 0 depth)] else [])
          = match depth with
            | Some d => if bool_decide (d = 0) then [] else ["--depth"; pretty d]
            | None => []
            end) as ->.
  { destruct depth as [d|]; [|done]. simpl. by case_bool_decide. }
  split_and!.
  - intros [|x t] -> Hne; [done|]. simpl in *.
    destruct (truthy commit); [lia|done].
  - intros [|x b] -> Hne; [done|]. simpl in *.
    destruct (truthy tag); [lia|]. destruct (truthy commit); [lia|done].
  - intros [|x c] -> Hne; [done|]. simpl in *.
    destruct (truthy tag); [lia|]. destruct (truthy branch); [lia|done].
  - by intros -> -> ->.
Qed.

End ClonePath.

(** A shallow clone pinned to a commit. *)
Lemma clone_new_commands_witness :
  exists self,
    __init__ "https://example.org/r.git" "/parts/src" None (Some "0123abc") None
             (Some 1) false None (Some []) = inr self
    /\ commands (_clone_new scripted self (start [])).2
       = [["git"; "clone"; "--depth"; "1"; "https://example.org/r.git"; "/parts/src"];
          ["git"; "-C"; "/parts/src"; "fetch"; "origin"; "0123abc"];
          ["git"; "-C"; "/parts/src"; "checkout"; "0123abc"]].
Proof.
  eexists. split; [reflexivity|].
  pose proof (clone_new_commands scripted
                "https://example.org/r.git" "/parts/src" None (Some "0123abc") None
                (Some 1) false None (Some []) _ (start []) eq_refl)
    as (_ & _ & H & _).
  rewrite (H "0123abc" eq_refl); [reflexivity|discriminate].
Defined.

(** X4.  The configuration error of the constructor names what was
    actually given: a conflict error lists two different selector options
    that were both given; the checksum error is raised only when the
    selectors do not conflict and a checksum was given. *)
Theorem init_error_names_given_options
    src dir tag commit branch depth silent checksum subs e :
  __init__ src dir tag commit branch depth silent checksum subs = inl e ->
  (exists a b,
      e = SnapcraftSourceIncompatibleOptionsError "git" [a; b]
      /\ a <> b
      /\ option_given tag commit branch a = true
      /\ option_given tag commit branch b = true)
  \/ (e = SnapcraftSourceInvalidOptionError "git" "source-checksum"
      /\ truthy checksum = true
      /\ (selectors_given tag commit branch <= 1)%nat).
Proof.
  unfold __init__, selectors_given.
  destruct (truthy tag) eqn:Et, (truthy branch) eqn:Eb, (truthy commit) eqn:Ec,
    (truthy checksum) eqn:Ek; simpl; intros [= <-];
    first [ right; split_and!; [done|done|lia]
          | left; eexists _, _; split; [reflexivity|];
            unfold option_given; simpl; by rewrite ?Et, ?Eb, ?Ec ].
Qed.

(** Tag and commit together, with a checksum as well: the conflict wins. *)
Lemma init_error_names_given_options_witness :
  exists a b,
    SnapcraftSourceIncompatibleOptionsError "git" ["source-tag"; "source-commit"]
    = SnapcraftSourceIncompatibleOptionsError "git" [a; b]
    /\ a <> b
    /\ option_given (Some "v1") (Some "0123abc") None a = true
    /\ option_given (Some "v1") (Some "0123abc") None b = true.
Proof.
  destruct (init_error_names_given_options
              "https://example.org/r.git" "/parts/src" (Some "v1") (Some "0123abc")
              None None false (Some "sha256/00") None _ eq_refl)
    as [H|(H & _)]; [exact H|discriminate H].
Defined.

(** * Details of a pinned source *)

Section PinnedDetails.

Context {World : Type}.
Variable exec : list string -> kwargs -> World -> completed * World.
Variable path_exists : string -> World -> bool.
Variable output_text : string -> string.

Lemma pull_prefix_commit
    src dir tag commit branch depth silent checksum subs self (h h2 : heap World) d :
  __init__ src dir tag commit branch depth silent checksum subs = inr self ->
  pull_prefix exec path_exists output_text self h = (inr d, h2) ->
  truthy tag || truthy branch || truthy commit = true ->
  d !! "source-commit" = Some commit.
Proof.
  intros Hi. unfold pull_prefix, bind, is_local.
  destruct (path_exists _ _);
    [destruct (_pull_existing exec self h) as [[e|[]] h1]
    |destruct (_clone_new exec self h) as [[e|[]] h1]]; simpl; try done;
    intros E2 Hsel;
    by apply (_get_source_details_ok exec output_text
                _ _ _ _ _ _ _ _ _ _ _ _ _ Hi E2).
Qed.

(** X5.  When a tag or a branch is given, a successful [pull] does not
    ask the repository which commit is checked out: it issues the
    commands of its path and no [rev-parse], and the recorded
    source-commit is the constructor's commit argument, which is null or
    empty. *)
Theorem pull_leaves_pinned_commit_unresolved
    src dir tag commit branch depth silent checksum subs self (h : heap World) :
  __init__ src dir tag commit branch depth silent checksum subs = inr self ->
  truthy tag || truthy branch = true ->
  let run := pull exec path_exists output_text self h in
  let local := path_exists (OsPath.join (source_dir self) [".git"]) (world h) in
  run.1 = inr tt ->
  exists d,
    source_details run.2 = Some d
    /\ d !! "source-commit" = Some commit
    /\ truthy commit = false
    /\ (new_calls (pull exec path_exists output_text self) h).*1
       = (if local then pull_existing_plan self else clone_new_plan self).
Proof.
  intros Hi Hsel. simpl. unfold new_calls. rewrite pull_run.
  destruct (__init___fields _ _ _ _ _ _ _ _ _ _ Hi)
    as (Ht & Hc & Hb & _ & _ & _ & _ & _ & Hn & _).
  assert (truthy commit = false) as Hcf.
  { unfold selectors_given in Hn.
    destruct (truthy tag), (truthy branch), (truthy commit); simpl in *;
      (done || lia). }
  assert (no_selector self = false) as Hns.
  { unfold no_selector. rewrite Ht, Hb.
    by destruct (truthy tag), (truthy branch). }
  destruct (follows_pull_prefix exec path_exists output_text self h)
    as (c & Hf & Ec).
  destruct (Hf h) as (l & Hl & _ & Hr). rewrite <- Ec in Hl, Hr.
  destruct (pull_prefix exec path_exists output_text self h) as [[e|d] h2] eqn:E;
    simpl in *; [done|].
  intros _. exists d. split_and!; try done.
  - apply (pull_prefix_commit _ _ _ _ _ _ _ _ _ _ _ _ _ Hi E).
    by rewrite Hsel.
  - rewrite Hl, drop_app_length. destruct Hr as [-> _].
    unfold pull_plan. by rewrite Hns, app_nil_r.
Qed.

End PinnedDetails.

(** A fresh clone of a tagged source. *)
Lemma pull_leaves_pinned_commit_unresolved_witness :
  exists self d,
    __init__ "https://example.org/r.git" "/parts/src" (Some "v1.2") None None
             None false None None = inr self
    /\ source_details (pull scripted no_paths text_id self (start [])).2 = Some d
    /\ d !! "source-commit" = Some None
    /\ (new_calls (pull scripted no_paths text_id self) (start [])).*1
       = [["git"; "clone"; "--recursive"; "--branch"; "v1.2";
           "https://example.org/r.git"; "/parts/src"]].
Proof.
  eexists.
  destruct (pull_leaves_pinned_commit_unresolved scripted no_paths text_id
              "https://example.org/r.git" "/parts/src" (Some "v1.2") None None
              None false None None _ (start []) eq_refl eq_refl eq_refl)
    as (d & Hd & Hc & _ & Hl).
  exists d. split_and!; [reflexivity|exact Hd|exact Hc|exact Hl].
Defined.

(** * More on version derivation *)

Module RewrittenFacts.
Import Re ReSem ReFacts PatternFacts TextFacts.

Local Abbreviation dirty_mark := (Text.to_list "-dirty").

Lemma last_hex_or_y (X C D : list ascii) :
  C <> [] -> forallb is_hex C = true -> D = [] \/ D = dirty_mark ->
  exists c, last (X ++ C ++ D) = Some c /\ (is_hex c = true \/ c = "y"%char).
Proof.
  intros HC HCc HD.
  destruct (last_in_class _ _ HC HCc) as (c & Hc & HP).
  apply last_Some in Hc as [C0 ->].
  destruct HD as [->| ->].
  - exists c. split; [|by left]. apply last_Some. exists (X ++ C0).
    by rewrite app_nil_r, app_assoc.
  - exists "y"%char. split; [|by right]. apply last_Some.
    exists (X ++ (C0 ++ [c]) ++ Text.to_list "-dirt").
    by rewrite <- !app_assoc.
Qed.

(** Two texts that end in a hexadecimal run and an optional marker agree
    on the marker. *)
Lemma tail_unique (X C D X' C' D' : list ascii) :
  C <> [] -> forallb is_hex C = true -> D = [] \/ D = dirty_mark ->
  C' <> [] -> forallb is_hex C' = true -> D' = [] \/ D' = dirty_mark ->
  X ++ C ++ D = X' ++ C' ++ D' ->
  D = D' /\ X ++ C = X' ++ C'.
Proof.
  intros HC HCc HD HC' HCc' HD' E.
  assert (D = D') as <-.
  { destruct HD as [->| ->], HD' as [->| ->]; try done.
    - destruct (last_in_class _ _ HC HCc) as (x & Hx & HP).
      apply last_Some in Hx as [C0 ->].
      assert (last (X ++ (C0 ++ [x]) ++ []) = Some x) as L1.
      { apply last_Some. exists (X ++ C0). by rewrite app_nil_r, app_assoc. }
      assert (last (X' ++ C' ++ dirty_mark) = Some "y"%char) as L2.
      { apply last_Some. exists (X' ++ C' ++ Text.to_list "-dirt").
        by rewrite <- !app_assoc. }
      rewrite E, L2 in L1. by injection L1 as <-.
    - destruct (last_in_class _ _ HC' HCc') as (x & Hx & HP).
      apply last_Some in Hx as [C0 ->].
      assert (last (X' ++ (C0 ++ [x]) ++ []) = Some x) as L1.
      { apply last_Some. exists (X' ++ C0). by rewrite app_nil_r, app_assoc. }
      assert (last (X ++ C ++ dirty_mark) = Some "y"%char) as L2.
      { apply last_Some. exists (X ++ C ++ Text.to_list "-dirt").
        by rewrite <- !app_assoc. }
      rewrite <- E, L2 in L1. by injection L1 as <-. }
  split; [done|]. apply (app_inv_tail D). by rewrite <- !app_assoc.
Qed.

(** A rewritten version is not of the tag-relative shape again: its
    hexadecimal run follows a dot, not a [g]. *)
Lemma rewritten_not_shape (T N C D T' N' C' D' E' : list ascii) :
  C <> [] -> forallb is_hex C = true -> D = [] \/ D = dirty_mark ->
  ~ shape T' N' C' D' E'
          (T ++ Text.to_list "+git" ++ N ++ "."%char :: C ++ D).
Proof.
  intros HC HCc HD [E _ _ [HC' HCc'] HD' HE'].
  assert (E' = []) as ->.
  { destruct HE' as [->| ->]; [done|]. exfalso.
    destruct (last_hex_or_y (T ++ Text.to_list "+git" ++ N ++ ["."%char]) C D)
      as (c & Hc & Hcls); try done.
    assert (last (T ++ Text.to_list "+git" ++ N ++ "."%char :: C ++ D)
            = Some "010"%char) as L.
    { rewrite E. apply last_Some.
      exists (T' ++ "-"%char :: N' ++ "-"%char :: "g"%char :: C' ++ D').
      repeat (rewrite <- app_assoc || rewrite <- app_comm_cons). done. }
    replace (T ++ Text.to_list "+git" ++ N ++ "."%char :: C ++ D)
      with ((T ++ Text.to_list "+git" ++ N ++ ["."%char]) ++ C ++ D) in L
      by (repeat (rewrite <- app_assoc || rewrite <- app_comm_cons); done).
    rewrite L in Hc. injection Hc as <-. by destruct Hcls. }
  rewrite app_nil_r in E.
  destruct (tail_unique (T ++ Text.to_list "+git" ++ N ++ ["."%char]) C D
              (T' ++ "-"%char :: N' ++ ["-"%char; "g"%char]) C' D')
    as [_ E2]; try done.
  { transitivity (T ++ Text.to_list "+git" ++ N ++ "."%char :: C ++ D);
      [|rewrite E];
      repeat (rewrite <- app_assoc || rewrite <- app_comm_cons); done. }
  assert ((T ++ Text.to_list "+git" ++ N) ++ "."%char :: C
          = (T' ++ "-"%char :: N' ++ ["-"%char]) ++ "g"%char :: C') as E3.
  { repeat (rewrite <- app_assoc || rewrite <- app_comm_cons).
    repeat (rewrite <- app_assoc in E2 || rewrite <- app_comm_cons in E2).
    exact E2. }
  apply (split_at_last_outsider is_hex) in E3 as (_ & E4 & _); done.
Qed.

End RewrittenFacts.

(** X6.  Deriving a version from a derived version changes nothing:
    whatever [generate_version] makes of a describe output is left alone
    when it is formatted again. *)
Theorem format_describe_idempotent (output : string) :
  format_describe (format_describe output) = format_describe output.
Proof.
  unfold format_describe at 2 3.
  destruct (Re.search version_pattern output) as [gs|] eqn:Hs.
  - unfold version_pattern in Hs. rewrite ReFacts.search_Bol in Hs.
    destruct (PatternFacts.pattern_sound _ _ Hs)
      as (T & N & C & D & E & S & ->).
    simpl. rewrite TextFacts.of_list_app.
    set (r := Text.of_list T +:+ "+git" +:+ Text.of_list N +:+ "."
              +:+ Text.of_list C +:+ Text.of_list D).
    unfold format_describe.
    destruct (Re.search version_pattern r) as [gs'|] eqn:Hs'; [|done].
    exfalso. unfold version_pattern in Hs'. rewrite ReFacts.search_Bol in Hs'.
    destruct (PatternFacts.pattern_sound _ _ Hs')
      as (T' & N' & C' & D' & E' & S' & _).
    subst r. rewrite !TextFacts.to_list_app, !TextFacts.to_of_list in S'.
    destruct S as [_ _ _ [HC HCc] HD _].
    by apply (RewrittenFacts.rewritten_not_shape T N C D) in S'.
  - unfold format_describe. by rewrite Hs.
Qed.

Section Queries.

Context {World : Type}.
Variable exec : list string -> kwargs -> World -> completed * World.
Variable getcwd : World -> string.

(** X7.  [generate_version] runs the describe query once, in the given
    directory or else the working directory; it runs the [--always] query
    only when the first one exited non-zero, and then once; it never
    touches the recorded details. *)
Theorem generate_version_queries source_dir (h : heap World) r1 w1 :
  let dir := describe_dir getcwd source_dir (world h) in
  let op := generate_version exec getcwd source_dir in
  exec (describe_cmd dir) [("stderr", DEVNULL)] (world h) = (r1, w1) ->
  source_details (op h).2 = source_details h
  /\ (returncode r1 = 0 -> (new_calls op h).*1 = [describe_cmd dir])
  /\ (returncode r1 <> 0 ->
      (new_calls op h).*1 = [describe_cmd dir; describe_always_cmd dir]).
Proof.
  intros dir op E. subst op. unfold new_calls.
  pose proof (generate_version_run exec getcwd source_dir h) as R. simpl in R.
  fold dir in R. rewrite E in R.
  destruct (exec (describe_always_cmd dir) _ w1) as [r2 w2].
  rewrite R. clear R. split_and!.
  - by repeat case_bool_decide.
  - intros H1. rewrite bool_decide_eq_true_2 by done. simpl.
    by rewrite drop_app_length.
  - intros H1. rewrite bool_decide_eq_false_2 by done.
    case_bool_decide; simpl; by rewrite <- app_assoc, drop_app_length.
Qed.

End Queries.

(** A tagged tree: one query is enough. *)
Lemma generate_version_queries_witness :
  (new_calls (generate_version scripted cwd_root None) (start [ok "v1.2"])).*1
  = [["git"; "-C"; "/"; "describe"; "--dirty"]].
Proof.
  apply (proj1 (proj2 (generate_version_queries scripted cwd_root None
                         (start [ok "v1.2"]) _ _ eq_refl))).
  reflexivity.
Defined.

(** * Paths below the target directory *)

Module OsPathFacts.
Import Text.

Lemma app_cons a (s t : string) : String a s +:+ t = String a (s +:+ t).
Proof. reflexivity. Qed.

Lemma app_nil_l (t : string) : "" +:+ t = t.
Proof. reflexivity. Qed.

Lemma app_nil_r (s : string) : s +:+ "" = s.
Proof. induction s as [|a s IH]; [done|]. by rewrite app_cons, IH. Qed.

Lemma app_assoc (s t u : string) : (s +:+ t) +:+ u = s +:+ t +:+ u.
Proof. induction s as [|a s IH]; [done|]. by rewrite !app_cons, IH. Qed.

Lemma startswith_app (p x : string) : startswith (p +:+ x) p = true.
Proof.
  induction p as [|a p IH]; [by destruct x|].
  rewrite app_cons. simpl. by rewrite Ascii.eqb_refl.
Qed.

Lemma rev_app_rev_app (c a b : string) :
  String.rev_app (String.rev_app c a) b = String.rev_app a (c +:+ b).
Proof.
  revert a b. induction c as [|x c IH]; intros a b; [done|].
  simpl. by rewrite IH.
Qed.

Lemma rev_rev_app (c : string) : String.rev (String.rev_app c "") = c.
Proof. unfold String.rev. rewrite rev_app_rev_app. simpl. apply app_nil_r. Qed.

Lemma clean_no_slash c : clean_component c = true -> no_slash c = true.
Proof. unfold clean_component. by intros [_ ?]%andb_prop. Qed.

Lemma clean_shape c :
  clean_component c = true ->
  exists a c', c = String a c' /\ Ascii.eqb a "/" = false.
Proof.
  unfold clean_component. destruct c as [|a c'].
  - by rewrite bool_decide_eq_true_2.
  - intros [_ H]%andb_prop. simpl in H. apply andb_prop in H as [H _].
    exists a, c'. split; [done|]. by destruct (Ascii.eqb a "/").
Qed.

Lemma split_go_skip (cur c rest : string) :
  no_slash c = true ->
  split_go "/" cur (c +:+ rest) = split_go "/" (String.rev_app c cur) rest.
Proof.
  revert cur. induction c as [|a c IH]; intros cur; [done|].
  unfold no_slash. simpl. intros [Ha Hc]%andb_prop.
  rewrite ?app_cons. simpl.
  destruct (Ascii.eqb a "/"); [done|]. by apply IH.
Qed.

Lemma split_join (cs : list string) :
  cs <> [] -> forallb clean_component cs = true ->
  split "/" (join "/" cs) = cs.
Proof.
  unfold split. induction cs as [|c cs IH]; [done|]. intros _. simpl.
  intros [Hc Hcs]%andb_prop. apply clean_no_slash in Hc.
  destruct cs as [|c2 cs].
  - rewrite <- (app_nil_r c) at 1. rewrite split_go_skip by done.
    simpl. by rewrite rev_rev_app.
  - rewrite split_go_skip by done. rewrite app_cons, app_nil_l. simpl.
    rewrite rev_rev_app. f_equal. by apply IH.
Qed.

Lemma join_app (ds rs : list string) :
  ds <> [] -> rs <> [] ->
  join "/" (ds ++ rs) = join "/" ds +:+ "/" +:+ join "/" rs.
Proof.
  induction ds as [|d ds IH]; [done|]. intros _ Hrs.
  destruct ds as [|d2 ds].
  - simpl. by destruct rs.
  - change (join "/" ((d :: d2 :: ds) ++ rs))
      with (d +:+ "/" +:+ join "/" ((d2 :: ds) ++ rs)).
    rewrite IH by done.
    change (join "/" (d :: d2 :: ds)) with (d +:+ "/" +:+ join "/" (d2 :: ds)).
    by rewrite !app_assoc.
Qed.

Lemma foldl_clean b (acc cs : list string) :
  forallb clean_component cs = true ->
  foldl (OsPath.normpath_step b) acc cs = acc ++ cs.
Proof.
  revert acc. induction cs as [|c cs IH]; intros acc; simpl.
  - by rewrite List.app_nil_r.
  - intros [Hc Hcs]%andb_prop. rewrite IH by done.
    unfold clean_component in Hc.
    apply andb_prop in Hc as [[[H1 H2]%andb_prop H3]%andb_prop _].
    apply negb_true_iff in H1, H2, H3.
    unfold OsPath.normpath_step. rewrite H1, H2, H3. simpl.
    by rewrite <- List.app_assoc.
Qed.

(** A normalized absolute path is a fixed point of [normpath]. *)
Lemma normpath_clean (cs : list string) :
  cs <> [] -> forallb clean_component cs = true ->
  OsPath.normpath ("/" +:+ join "/" cs) = "/" +:+ join "/" cs.
Proof.
  intros Hne Hcs. unfold OsPath.normpath.
  rewrite bool_decide_eq_false_2 by done.
  assert (startswith ("/" +:+ join "/" cs) "//" = false) as Hss.
  { destruct cs as [|c cs]; [done|]. simpl in Hcs.
    apply andb_prop in Hcs as [Hc _].
    destruct (clean_shape _ Hc) as (a & c' & -> & Ha).
    destruct cs; simpl; rewrite ?app_cons; simpl; by rewrite Ha. }
  rewrite (startswith_app "/"), Hss. simpl.
  change (split_go "/" "" ("" +:+ join "/" cs)) with (split "/" (join "/" cs)).
  rewrite split_join by done.
  change (OsPath.normpath_step true [] (String.rev "")) with (@nil string).
  by rewrite foldl_clean.
Qed.

Lemma components_clean (cs : list string) :
  cs <> [] -> forallb clean_component cs = true ->
  OsPath.components ("/" +:+ join "/" cs) = cs.
Proof.
  intros Hne Hcs. unfold OsPath.components.
  change (split "/" ("/" +:+ join "/" cs)) with ("" :: split "/" (join "/" cs)).
  rewrite split_join by done.
  rewrite filter_cons_False by (intros H; by apply H).
  clear Hne. induction cs as [|c cs IH]; [done|]. simpl in Hcs.
  apply andb_prop in Hcs as [Hc Hcs].
  rewrite filter_cons_True; [by rewrite IH|].
  by destruct (clean_shape _ Hc) as (a & c' & -> & _).
Qed.

Lemma commonprefix_len_app (ds rs : list string) :
  OsPath.commonprefix_len ds (ds ++ rs) = length ds.
Proof.
  induction ds as [|d ds IH]; [done|]. simpl.
  by rewrite bool_decide_eq_true_2, IH.
Qed.

Lemma endswith_char_app (x b : string) :
  b <> "" -> endswith_char (x +:+ b) "/" = endswith_char b "/".
Proof.
  intros Hb. induction x as [|a x IH]; [done|].
  rewrite app_cons. simpl. rewrite IH.
  destruct (x +:+ b) eqn:E; [|done].
  destruct x; [|done]. simpl in E. by subst.
Qed.

Lemma endswith_char_no_slash (b : string) :
  no_slash b = true -> endswith_char b "/" = false.
Proof.
  induction b as [|a b IH]; [done|]. unfold no_slash. simpl.
  intros [Ha Hb]%andb_prop. destruct b as [|a2 b].
  - by destruct (Ascii.eqb a "/").
  - by apply IH.
Qed.

(** Joining clean components puts one slash between them. *)
Lemma join_clean (acc : string) (rs : list string) :
  acc <> "" -> endswith_char acc "/" = false ->
  forallb clean_component rs = true ->
  OsPath.join acc rs = join "/" (acc :: rs).
Proof.
  unfold OsPath.join. revert acc.
  induction rs as [|r rs IH]; intros acc Hne Hend; [done|]. simpl.
  intros [Hr Hrs]%andb_prop.
  destruct (clean_shape _ Hr) as (a & r' & Er & Ha).
  assert (OsPath.join2 acc r = acc +:+ "/" +:+ r) as ->.
  { unfold OsPath.join2. rewrite Er. simpl. rewrite Ha.
    rewrite bool_decide_eq_false_2 by done. by rewrite Hend. }
  rewrite IH; try done.
  - destruct rs; [done|]. simpl. by rewrite !app_assoc.
  - by destruct acc.
  - rewrite endswith_char_app by (by rewrite Er).
    rewrite endswith_char_app by (by rewrite Er).
    by apply endswith_char_no_slash, clean_no_slash.
Qed.

(** The relative path of a file below a normalized absolute directory. *)
Lemma relpath_below cwd (ds rs : list string) :
  ds <> [] -> rs <> [] ->
  forallb clean_component ds = true -> forallb clean_component rs = true ->
  OsPath.relpath cwd (("/" +:+ join "/" ds) +:+ "/" +:+ join "/" rs)
                 ("/" +:+ join "/" ds)
  = Some (join "/" rs).
Proof.
  intros Hds Hrs Hcd Hcr.
  assert (("/" +:+ join "/" ds) +:+ "/" +:+ join "/" rs
          = "/" +:+ join "/" (ds ++ rs)) as ->.
  { by rewrite join_app, app_assoc. }
  assert (forallb clean_component (ds ++ rs) = true) as Hc
    by by rewrite forallb_app, Hcd, Hcr.
  assert (ds ++ rs <> []) as Hne by by destruct ds.
  unfold OsPath.relpath, OsPath.abspath.
  rewrite bool_decide_eq_false_2 by done.
  unfold OsPath.isabs. rewrite !(startswith_app "/").
  rewrite !normpath_clean, !components_clean by done.
  rewrite commonprefix_len_app, Nat.sub_diag, drop_app_length. simpl.
  destruct rs as [|r rs]; [done|]. f_equal.
  simpl in Hcr. apply andb_prop in Hcr as [Hr Hcr].
  apply join_clean; [| |done].
  - by destruct (clean_shape _ Hr) as (a & r' & -> & _).
  - by apply endswith_char_no_slash, clean_no_slash.
Qed.

End OsPathFacts.

Section AddPaths.

Context {World : Type}.
Variable exec : list string -> kwargs -> World -> completed * World.
Variable getcwd : World -> string.

(** X8.  [add] stages a file that lies below a normalized absolute target
    directory under its path relative to that directory, whatever the
    working directory is; a file whose path does not start with the
    target directory's path is staged under the path as given. *)
Theorem add_stages_path self file (h : heap World) :
  (forall ds rs,
      ds <> [] -> rs <> [] ->
      forallb clean_component ds = true -> forallb clean_component rs = true ->
      source_dir self = "/" +:+ Text.join "/" ds ->
      file = source_dir self +:+ "/" +:+ Text.join "/" rs ->
      add exec getcwd self file h
      = _run_git_command exec (git_C self ["add"; Text.join "/" rs]) h)
  /\ (Text.startswith file (source_dir self) = false ->
      add exec getcwd self file h
      = _run_git_command exec (git_C self ["add"; file]) h).
Proof.
  split.
  - intros ds rs Hds Hrs Hcd Hcr Hdir ->. unfold add, bind, git_C.
    rewrite OsPathFacts.startswith_app. rewrite Hdir.
    by rewrite OsPathFacts.relpath_below.
  - intros Hs. unfold add, bind, ret, git_C. by rewrite Hs.
Qed.

End AddPaths.

(** A source file two levels below the target directory. *)
Lemma add_stages_path_witness :
  let self := Build_Git "https://example.org/r.git" "/parts/src" None None None
                        None None None "git" [] in
  commands (add scripted cwd_root self "/parts/src/lib/a.c" (start [])).2
  = [["git"; "-C"; "/parts/src"; "add"; "lib/a.c"]].
Proof.
  intros self.
  rewrite (proj1 (add_stages_path scripted cwd_root self "/parts/src/lib/a.c"
                    (start []))
                 ["parts"; "src"] ["lib"; "a.c"]);
    (reflexivity || discriminate).
Defined.

(** * Every command is directed at the target directory *)

Section Targets.

Context {World : Type}.
Variable exec : list string -> kwargs -> World -> completed * World.
Variable path_exists : string -> World -> bool.
Variable getcwd : World -> string.
Variable output_text : string -> string.

Lemma targets_git_C self args :
  command self = "git" -> targets (source_dir self) (git_C self args).
Proof. intros H. left. unfold git_C. by rewrite H. Qed.

Lemma targets_pull_plan self local :
  command self = "git" -> Forall (targets (source_dir self)) (pull_plan self local).
Proof.
  intros H. unfold pull_plan. apply Forall_app. split.
  - destruct local.
    + unfold pull_existing_plan, prefetch_cmds. apply Forall_app. split.
      * destruct (_ && _); [|done]. apply Forall_singleton.
        by apply targets_git_C.
      * apply Forall_cons. split; [by apply targets_git_C|].
        apply Forall_cons. split; [by apply targets_git_C|].
        destruct (submodules_in_scope self); [|done].
        apply Forall_singleton. by apply targets_git_C.
    + unfold clone_new_plan, pin_commit_cmds. apply Forall_cons. split.
      * right. unfold clone_cmd. rewrite H. split; [done|].
        rewrite !(assoc_L (++)).
        change [source self; source_dir self]
          with ([source self] ++ [source_dir self]).
        rewrite (assoc_L (++)). apply last_snoc.
      * destruct (truthy (source_commit self)); [|done].
        apply Forall_cons. split; [by apply targets_git_C|].
        apply Forall_singleton. by apply targets_git_C.
  - destruct (no_selector self); [|done]. apply Forall_singleton.
    by left.
Qed.

Lemma new_calls__run_git_command cmd (h : heap World) :
  (new_calls (_run_git_command exec cmd) h).*1 = [cmd].
Proof.
  unfold new_calls. rewrite _run_git_command_run.
  destruct (exec cmd [] (world h)) as [r w']. simpl.
  by rewrite drop_app_length.
Qed.

(** X9.  Whatever a constructed source does — [pull] on either path,
    [init], [add], [commit] or [push], whether it succeeds or fails —
    every command it issues is directed at its own target directory: it
    starts with [git -C <source_dir>], or it is the [git clone] whose last
    argument is that directory. *)
Theorem commands_target_source_dir
    src dir tag rev branch depth silent checksum subs self (h : heap World)
    url refspec force file message author cmd :
  __init__ src dir tag rev branch depth silent checksum subs = inr self ->
  cmd ∈ (new_calls (pull exec path_exists output_text self) h).*1
  \/ cmd ∈ (new_calls (init exec self) h).*1
  \/ cmd ∈ (new_calls (add exec getcwd self file) h).*1
  \/ cmd ∈ (new_calls (commit exec self message author) h).*1
  \/ cmd ∈ (new_calls (push exec self url refspec force) h).*1 ->
  targets dir cmd.
Proof.
  intros Hi.
  destruct (__init___fields _ _ _ _ _ _ _ _ _ _ Hi)
    as (_ & _ & _ & _ & _ & _ & Hd & Hcmd & _ & _).
  rewrite <- Hd.
  intros [H|[H|[H|[H|H]]]].
  - revert H. unfold new_calls. rewrite pull_run.
    destruct (follows_pull_prefix exec path_exists output_text self h)
      as (c & Hf & ->).
    destruct (Hf h) as (l & Hl & Hp & _).
    assert (log (match c h with
                 | (inl e, h') => (inl e, h')
                 | (inr d, h') => (inr tt, Heap (world h') (log h') (Some d))
                 end).2 = log (c h).2) as -> by by destruct (c h) as [[?|?] ?].
    rewrite Hl, drop_app_length. intros H.
    apply (elem_of_prefix _ _ _ H) in Hp.
    eapply (proj1 (Forall_forall _ _)); [|exact Hp].
    by apply targets_pull_plan.
  - unfold init in H. rewrite new_calls__run_git_command in H.
    apply list_elem_of_singleton in H as ->. left. by rewrite Hcmd.
  - revert H. unfold new_calls, add, bind, ret.
    destruct (Text.startswith file (source_dir self)).
    + destruct (OsPath.relpath _ _ _) as [rel|].
      * intros H. fold (new_calls (_run_git_command exec
                  [command self; "-C"; source_dir self; "add"; rel]) h) in H.
        rewrite new_calls__run_git_command in H.
        apply list_elem_of_singleton in H as ->. left. by rewrite Hcmd.
      * simpl. rewrite drop_all. by intros ?%elem_of_nil.
    + intros H. fold (new_calls (_run_git_command exec
                  [command self; "-C"; source_dir self; "add"; file]) h) in H.
      rewrite new_calls__run_git_command in H.
      apply list_elem_of_singleton in H as ->. left. by rewrite Hcmd.
  - unfold commit in H. rewrite new_calls__run_git_command in H.
    apply list_elem_of_singleton in H as ->. left. by rewrite Hcmd.
  - unfold push in H. rewrite new_calls__run_git_command in H.
    apply list_elem_of_singleton in H as ->. left. rewrite Hcmd.
    by destruct force.
Qed.

End Targets.

(** The clone of a fresh [pull]. *)
Lemma commands_target_source_dir_witness :
  targets "/parts/src"
          ["git"; "clone"; "--recursive"; "https://example.org/r.git"; "/parts/src"].
Proof.
  apply (commands_target_source_dir scripted no_paths cwd_root text_id
           "https://example.org/r.git" "/parts/src" None None None None false
           None None _ (start []) "" "" false "" "" None _ eq_refl).
  left. apply list_elem_of_lookup. by exists 0%nat.
Defined.

(** * Probing for the tool *)

Section ProbeFacts.

Context {World : Type}.
Variable spawn : list string -> kwargs -> World -> spawned * World.

(** X10.  [check_command_installed] answers [False] only when the tool
    could not be spawned at all and [True] only when [git version] exited
    with zero; when the tool runs and exits non-zero the probe gives no
    answer: the process error escapes to the caller. *)
Theorem check_command_installed_outcomes (w : World) s w' :
  spawn ["git"; "version"] [("stderr", DEVNULL)] w = (s, w') ->
  let probe := (check_command_installed spawn w).1 in
  (probe = inr false <-> s = NotFound)
  /\ (probe = inr true <-> exists r, s = Ran r /\ returncode r = 0)
  /\ (forall e, probe = inl e <->
        exists r, s = Ran r /\ returncode r <> 0
                  /\ e = Raised (CalledProcessError (returncode r)
                                   ["git"; "version"] (stdout r))).
Proof.
  intros E. unfold check_command_installed, version. rewrite E.
  destruct s as [r|]; [case_bool_decide as Hr|]; simpl; split_and!.
  - split; [done|]. done.
  - split; [intros _; by exists r|done].
  - intros e. split; [done|]. by intros (r' & [= <-] & Hn & _).
  - split; done.
  - split; [done|]. by intros (r' & [= <-] & Hz).
  - intros e. split.
    + intros [= <-]. by exists r.
    + by intros (r' & [= <-] & _ & ->).
  - done.
  - split; [done|]. by intros (r' & ? & _).
  - intros e. split; [done|]. by intros (r' & ? & _).
Qed.

End ProbeFacts.

(** A tool that is installed but broken: no answer, the error escapes. *)
Lemma check_command_installed_outcomes_witness :
  (check_command_installed
     (fun _ _ (w : unit) => (Ran (failed 127 "" "cannot execute"), w)) tt).1
  = inl (Raised (CalledProcessError 127 ["git"; "version"] "")).
Proof.
  apply (proj2 (proj2 (check_command_installed_outcomes
                         (fun _ _ (w : unit) =>
                            (Ran (failed 127 "" "cannot execute"), w))
                         tt _ _ eq_refl))).
  exists (failed 127 "" "cannot execute"). split; [done|]. split; [simpl; lia|done].
Defined.

(** * A derived version is trimmed *)

Module StripFacts.
Import Text TextFacts.

Lemma rstrip_fixed (s : string) (l : list ascii) (c : ascii) :
  to_list s = l ++ [c] -> isspace c = false -> rstrip s = s.
Proof.
  revert l. induction s as [|a s IH]; intros l Hs Hc; [done|].
  destruct s as [|b s].
  - destruct l as [|x [|y l]]; simplify_eq/=. by rewrite Hc.
  - destruct l as [|x l]; [done|]. injection Hs as <- Hs.
    change (rstrip (String a (String b s)))
      with (match rstrip (String b s) with
            | "" => if isspace a then "" else String a ""
            | r => String a r
            end).
    by rewrite (IH l).
Qed.

Lemma rstrip_head (c : ascii) (s : string) :
  isspace c = false -> exists r, rstrip (String c s) = String c r.
Proof.
  intros Hc. simpl. destruct (rstrip s) as [|b r].
  - rewrite Hc. by eexists.
  - by eexists.
Qed.

Lemma rstrip_idempotent (s : string) : rstrip (rstrip s) = rstrip s.
Proof.
  induction s as [|a s IH]; [done|]. simpl.
  destruct (rstrip s) as [|b r] eqn:E.
  - destruct (isspace a) eqn:Ea; [done|]. simpl. by rewrite Ea.
  - change (rstrip (String a (String b r)))
      with (match rstrip (String b r) with
            | "" => if isspace a then "" else String a ""
            | r' => String a r'
            end).
    by rewrite IH.
Qed.

Lemma lstrip_head (s : string) :
  lstrip s = "" \/ exists c s', lstrip s = String c s' /\ isspace c = false.
Proof.
  induction s as [|a s IH]; [by left|]. simpl.
  destruct (isspace a) eqn:Ea; [done|]. right. by exists a, s.
Qed.

Lemma strip_head (c : ascii) (s : string) :
  isspace c = false -> strip (String c s) = rstrip (String c s).
Proof.
  intros Hc. unfold strip.
  change (lstrip (String c s)) with (if isspace c then lstrip s else String c s).
  by rewrite Hc.
Qed.

Lemma strip_idempotent (s : string) : strip (strip s) = strip s.
Proof.
  unfold strip at 2 3.
  destruct (lstrip_head s) as [->|(c & s' & -> & Hc)]; [done|].
  destruct (rstrip_head c s' Hc) as [r Hr]. rewrite Hr.
  rewrite strip_head by done. rewrite <- Hr. apply rstrip_idempotent.
Qed.

(** A text that neither starts nor ends with white space is its own
    [strip]. *)
Lemma strip_fixed (c c' : ascii) (s : string) (l : list ascii) :
  isspace c = false -> to_list (String c s) = l ++ [c'] -> isspace c' = false ->
  strip (String c s) = String c s.
Proof.
  intros Hc Hl Hc'. rewrite strip_head by done. by apply (rstrip_fixed _ l c').
Qed.

Lemma tag_char_not_space c : is_tag_char c = true -> isspace c = false.
Proof. destruct c as [[] [] [] [] [] [] [] []]; by vm_compute. Qed.

Lemma hex_not_space c : is_hex c = true -> isspace c = false.
Proof. destruct c as [[] [] [] [] [] [] [] []]; by vm_compute. Qed.

Lemma snoc_cases {A} (l : list A) : l = [] \/ exists l' x, l = l' ++ [x].
Proof.
  induction l as [|x l _] using rev_ind; [by left|]. right. by exists l, x.
Qed.

End StripFacts.

Section Trimmed.

Context {World : Type}.
Variable exec : list string -> kwargs -> World -> completed * World.
Variable getcwd : World -> string.

Lemma format_describe_trimmed (out : string) :
  Text.strip (format_describe (Text.strip out)) = format_describe (Text.strip out).
Proof.
  unfold format_describe.
  destruct (Re.search version_pattern (Text.strip out)) as [gs|] eqn:Hs;
    [|apply StripFacts.strip_idempotent].
  unfold version_pattern in Hs. rewrite ReFacts.search_Bol in Hs.
  destruct (PatternFacts.pattern_sound _ _ Hs) as (T & N & C & D & E & S & ->).
  simpl. rewrite TextFacts.of_list_app.
  destruct S as [_ [HT HTc] _ [HC HCc] HD _].
  destruct T as [|t T]; [done|]. simpl in HTc. apply andb_prop in HTc as [Ht _].
  destruct (RewrittenFacts.last_hex_or_y
              (t :: T ++ Text.to_list "+git" ++ N ++ ["."%char]) C D HC HCc HD)
    as (c & Hc & Hcls).
  apply last_Some in Hc as [l Hl].
  apply (StripFacts.strip_fixed t c _ l).
  - by apply StripFacts.tag_char_not_space.
  - change (String t ?s) with (Text.of_list [t] +:+ s).
    rewrite <- Hl.
    change (Text.of_list (t :: T)) with (Text.of_list ([t] ++ T)).
    rewrite !TextFacts.to_list_app, !TextFacts.to_of_list.
    repeat (rewrite <- app_assoc || rewrite <- app_comm_cons). done.
  - destruct Hcls as [H| ->]; [by apply StripFacts.hex_not_space|done].
Qed.

(** X11.  A version that [generate_version] returns neither starts nor
    ends with white space: stripping it changes nothing. *)
Theorem generate_version_trimmed source_dir (h : heap World) v :
  (generate_version exec getcwd source_dir h).1 = inr v -> Text.strip v = v.
Proof.
  pose proof (generate_version_run exec getcwd source_dir h) as R. simpl in R.
  destruct (exec (describe_cmd _) _ (world h)) as [r1 w1].
  destruct (exec (describe_always_cmd _) _ w1) as [r2 w2].
  rewrite R. clear R.
  case_bool_decide; simpl.
  - intros [= <-]. apply format_describe_trimmed.
  - case_bool_decide; simpl; [|done]. intros [= <-].
    destruct (StripFacts.snoc_cases (Text.to_list (Text.strip (stdout r2))))
      as [E|(l & c & E)].
    + apply (TextFacts.to_list_inj _ "") in E. rewrite E. by vm_compute.
    + change ("0+git." +:+ Text.strip (stdout r2))
        with (String "0" ("+git." +:+ Text.strip (stdout r2))).
      apply (StripFacts.strip_fixed "0" c _ ("0"%char :: Text.to_list "+git." ++ l));
        [done| |by apply (TextFacts.strip_last _ _ _ E)].
      change (Text.to_list (String "0" ?s)) with ("0"%char :: Text.to_list s).
      by rewrite TextFacts.to_list_app, E.
Qed.

End Trimmed.

(** A describe output with a final newline. *)
Lemma generate_version_trimmed_witness :
  Text.strip "v1.2+git3.abc1234" = "v1.2+git3.abc1234".
Proof.
  apply (generate_version_trimmed scripted cwd_root (Some "/parts/src")
           (start [ok ("v1.2-3-gabc1234" +:+ String "010" "")])).
  reflexivity.
Defined.
